(** * Stately: store, middleware pipeline, history recorder and logger

    A shallow embedding of the TypeScript sources

      - [store/types.ts]       (State, Action, Store, Middleware)
      - [store/devtools.ts]    (class DevTools, the history recorder)
      - [store/createStore.ts] (createStore)
      - [middleware/index.ts]  (applyMiddleware, createLogger)
      - [utils/logger.ts]      (class Logger and the default logger)

    followed by the properties of the specification that concern them.

    Modelling conventions.
      - A JS object used as a string-keyed record is a [gmap string Value];
        the spread [{...a, ...b}] is the right-biased union.
      - An action is an object with an identity: a value of type [Action]
        at run time is a reference ([ActionRef]) into the heap of action
        objects.  [dispatch] assigns to the object it is given, the
        recorder and the listeners are handed the reference.  An object can
        be frozen; assigning to it throws, the sources being strict code.
      - A JS [Set] of callbacks is an insertion-ordered list of callback
        identities without duplicates.  Invoking a callback is an observable
        event; a callback returns without calling back into the store, and
        what it does afterwards is outside the store.
      - The closure variables of [createStore] ([state], [listeners],
        [devTools]) are fields of a [World]; every store method is a
        computation over the [World] that completes normally or throws.
      - A middleware, supplied by the caller, is the tree of the calls it
        makes on [store] and on [next], of the action objects it reads and
        of those it creates; an updater function given to [setState] is a
        pure function of the state.
      - [Date.now()] reads an oracle clock.
      - Numbers that the code only compares or stores are integers ([Z]). *)

From stdpp Require Import gmap strings list fin_maps pretty.
From Stdlib Require Import ZArith Lia.

Set Warnings "-register-all".
Open Scope Z_scope.

(* ===================================================================== *)
(** * store/types.ts *)
(* ===================================================================== *)

(** [StateValue]: string | number | boolean | null | undefined | object |
    StateValue[]. *)
Inductive Value : Type :=
| VUndefined
| VNull
| VBool (b : bool)
| VNum (n : Z)
| VStr (s : string)
| VArr (xs : list Value)
| VObj (fields : gmap string Value).

(** [State = Record<string, StateValue>]. *)
Abbreviation State := (gmap string Value).

(** [interface Action { type: string; payload?: StateValue;
    timestamp?: number }]: the properties of an action object. *)
Record Action : Type := mkAction {
  type : string;
  payload : option Value;
  timestamp : option Z
}.

(** A value of type [Action] at run time: the reference to an action
    object, its address in the heap. *)
Abbreviation ActionRef := nat.

(** An action object: its properties, and whether it was frozen
    ([Object.freeze]), so that assigning to a property throws. *)
Record ActionObject : Type := mkActionObject {
  fields : Action;
  frozen : bool
}.

(** The error that strict code throws when it assigns to a property of a
    frozen object or of a value that is not an object. *)
Definition TypeError : Value := VObj {[ "name" := VStr "TypeError" ]}.

(** Identity of a callback function (JS compares functions by reference). *)
Abbreviation ListenerId := nat.

(** ** JS containers used by the sources *)

(** [Array.prototype.shift]: drops the first element, does nothing on the
    empty array. *)
Definition shift {A : Type} (l : list A) : list A := drop 1 l.

(** [Set.prototype.add]: appends unless already present. *)
Definition set_add (x : ListenerId) (s : list ListenerId) : list ListenerId :=
  if decide (x ∈ s) then s else s ++ [x].

(** [Set.prototype.delete]. *)
Definition set_delete (x : ListenerId) (s : list ListenerId) : list ListenerId :=
  filter (λ y, y ≠ x) s.

(** [Array.prototype.reduceRight(f, init)]: visits the elements from the
    last index down to index 0, threading the accumulator. *)
Definition reduceRight {A B : Type} (f : B → A → B) (init : B) (l : list A) : B :=
  fold_left f (rev l) init.

(** Result of reading a history slot: the getters return [null] when the
    index is out of range, an array read outside the array is [undefined]. *)
Inductive Slot (A : Type) : Type :=
| Found (x : A)
| Null
| Undefined.
Arguments Found {A} x.
Arguments Null {A}.
Arguments Undefined {A}.

(** [arr[i]] for an integer [i]. *)
Definition array_get {A : Type} (arr : list A) (i : Z) : Slot A :=
  if i <? 0 then Undefined
  else match arr !! Z.to_nat i with
       | Some x => Found x
       | None => Undefined
       end.

(* ===================================================================== *)
(** * store/devtools.ts : the history recorder *)
(* ===================================================================== *)

Module DevTools.

(** [interface DevToolsOptions { name?: string; enabled?: boolean }]. *)
Record Options : Type := mkOptions {
  opt_name : option string;
  opt_enabled : option bool
}.

(** The argument of a recorder listener:
    [{ type: string; state: State; action?: Action }]. *)
Record Change : Type := mkChange {
  change_type : string;
  change_state : State;
  change_action : option ActionRef
}.

(** One call of a recorder listener. *)
Abbreviation Notification := (ListenerId * Change)%type.

(** The private fields of [class DevTools].  The action history holds the
    references it was handed, not copies of the objects. *)
Record t : Type := mk {
  enabled : bool;
  name : string;
  stateHistory : list State;
  actionHistory : list ActionRef;
  maxHistorySize : Z;
  listeners : list ListenerId
}.

(** [constructor(options = {})]; [development] tells whether
    [process.env.NODE_ENV === 'development']. *)
Definition new (development : bool) (options : Options) : t :=
  {| name := match opt_name options with
             | Some n => if decide (n = "") then "Stately Store" else n
             | None => "Stately Store"
             end;
     enabled := default development (opt_enabled options);
     stateHistory := [];
     actionHistory := [];
     maxHistorySize := 100;
     listeners := [] |}.

(** [private notifyListeners(type, state, action)]. *)
Definition notifyListeners (ty : string) (state : State) (action : option ActionRef)
    (d : t) : list Notification :=
  (λ listener, (listener, mkChange ty state action)) <$> listeners d.

(** [record(action, state)]. *)
Definition record (action : ActionRef) (state : State) (d : t) : t * list Notification :=
  if negb (enabled d) then (d, [])
  else
    let sh := stateHistory d ++ [state] in
    let ah := actionHistory d ++ [action] in
    let over := Z.of_nat (length sh) >? maxHistorySize d in
    let d' := {| enabled := enabled d; name := name d;
                 stateHistory := if over then shift sh else sh;
                 actionHistory := if over then shift ah else ah;
                 maxHistorySize := maxHistorySize d;
                 listeners := listeners d |} in
    (d', notifyListeners "STATE_CHANGED" state (Some action) d').

(** The closure [() => this.listeners.delete(listener)]. *)
Definition unsubscribe (listener : ListenerId) (d : t) : t :=
  {| enabled := enabled d; name := name d;
     stateHistory := stateHistory d; actionHistory := actionHistory d;
     maxHistorySize := maxHistorySize d;
     listeners := set_delete listener (listeners d) |}.

(** [subscribe(listener)]: the recorder afterwards and the returned
    unsubscribe closure, [() => {}] when disabled. *)
Definition subscribe (listener : ListenerId) (d : t) : t * (t → t) :=
  if negb (enabled d) then (d, λ d', d')
  else
    ({| enabled := enabled d; name := name d;
        stateHistory := stateHistory d; actionHistory := actionHistory d;
        maxHistorySize := maxHistorySize d;
        listeners := set_add listener (listeners d) |},
     unsubscribe listener).

(** [getStateHistory()] and [getActionHistory()] return copies. *)
Definition getStateHistory (d : t) : list State := stateHistory d.
Definition getActionHistory (d : t) : list ActionRef := actionHistory d.

(** [getStateAt(index)]. *)
Definition getStateAt (index : Z) (d : t) : Slot State :=
  if (index <? 0) || (index >=? Z.of_nat (length (stateHistory d))) then Null
  else array_get (stateHistory d) (Z.of_nat (length (stateHistory d)) - 1 - index).

(** [getActionAt(index)]. *)
Definition getActionAt (index : Z) (d : t) : Slot ActionRef :=
  if (index <? 0) || (index >=? Z.of_nat (length (actionHistory d))) then Null
  else array_get (actionHistory d) (Z.of_nat (length (actionHistory d)) - 1 - index).

(** [clearHistory()]. *)
Definition clearHistory (d : t) : t :=
  {| enabled := enabled d; name := name d;
     stateHistory := []; actionHistory := [];
     maxHistorySize := maxHistorySize d; listeners := listeners d |}.

(** The loop of [setMaxHistorySize]:
    [while (this.stateHistory.length > size) { shift both }].
    One unit of fuel pays for one iteration; [None] means the fuel ran out
    before the test failed. *)
Fixpoint evictLoop (fuel : nat) (size : Z) (sh : list State) (ah : list ActionRef)
    : option (list State * list ActionRef) :=
  if Z.of_nat (length sh) >? size then
    match fuel with
    | O => None
    | S fuel' => evictLoop fuel' size (shift sh) (shift ah)
    end
  else Some (sh, ah).

(** [setMaxHistorySize(size)], with the fuel for its loop. *)
Definition setMaxHistorySize_fuel (fuel : nat) (size : Z) (d : t) : option t :=
  '(sh, ah) ← evictLoop fuel size (stateHistory d) (actionHistory d);
  Some {| enabled := enabled d; name := name d;
          stateHistory := sh; actionHistory := ah;
          maxHistorySize := size; listeners := listeners d |}.

(** An iteration that changes nothing never leaves the loop, and every
    other iteration shortens the state history: fuel equal to its length
    decides the loop, and [None] is divergence (see [evictLoop_more_fuel]
    and [evictLoop_diverges]). *)
Definition setMaxHistorySize (size : Z) (d : t) : option t :=
  setMaxHistorySize_fuel (length (stateHistory d)) size d.

(** [setEnabled(enabled)]. *)
Definition setEnabled (b : bool) (d : t) : t :=
  {| enabled := b; name := name d;
     stateHistory := stateHistory d; actionHistory := actionHistory d;
     maxHistorySize := maxHistorySize d; listeners := listeners d |}.

(** ** Sequences of recorder operations *)

Inductive Op : Type :=
| OpRecord (action : ActionRef) (state : State)
| OpSubscribe (listener : ListenerId)
| OpUnsubscribe (listener : ListenerId)
| OpClearHistory
| OpSetMaxHistorySize (size : Z)
| OpSetEnabled (b : bool).

(** One operation: the recorder afterwards and the listener calls made.
    [OpUnsubscribe l] calls the closure that an enabled [subscribe l]
    returned. *)
Definition step (op : Op) (d : t) : option (t * list Notification) :=
  match op with
  | OpRecord action state => Some (record action state d)
  | OpSubscribe listener => Some ((subscribe listener d).1, [])
  | OpUnsubscribe listener => Some (unsubscribe listener d, [])
  | OpClearHistory => Some (clearHistory d, [])
  | OpSetMaxHistorySize size => d' ← setMaxHistorySize size d; Some (d', [])
  | OpSetEnabled b => Some (setEnabled b d, [])
  end.

Fixpoint run (ops : list Op) (d : t) : option (t * list Notification) :=
  match ops with
  | [] => Some (d, [])
  | op :: ops' =>
      '(d1, n1) ← step op d;
      '(d2, n2) ← run ops' d1;
      Some (d2, n1 ++ n2)
  end.

(** The bound passed to [setMaxHistorySize] is non-negative. *)
Definition op_ok (op : Op) : Prop :=
  match op with
  | OpSetMaxHistorySize size => 0 ≤ size
  | _ => True
  end.

End DevTools.

(* ===================================================================== *)
(** * Computations over the store *)
(* ===================================================================== *)

(** What an outside observer sees of a run.  [EvListener] and [EvDevTools]
    are calls of subscribed callbacks; [EvListener] keeps the state and the
    action object that the callback was called with, and the properties
    that the object had at that moment.  [EvDispatch] and [EvMiddleware] are
    ghost marks: the raw [dispatch] of [createStore] was entered, and the
    wrapper that [applyMiddleware] built around the middleware registered at
    [index] was entered. *)
Inductive Event : Type :=
| EvListener (listener : ListenerId) (state : State) (action : ActionRef)
    (seen : option Action)
| EvDevTools (n : DevTools.Notification)
| EvDispatch (action : ActionRef)
| EvMiddleware (index : nat) (action : ActionRef).

(** The variables that the closures of one [createStore] call share, the
    action objects of the program, the clock behind [Date.now()] and the
    events so far. *)
Record World : Type := mkWorld {
  state : State;
  listeners : list ListenerId;
  devTools : DevTools.t;
  heap : list ActionObject;
  clock : nat → Z;
  ticks : nat;
  trace : list Event
}.

(** How a call ends: it returns, or it throws a value. *)
Inductive Completion (A : Type) : Type :=
| Normal (x : A)
| Throw (e : Value).
Arguments Normal {A} x.
Arguments Throw {A} e.

Definition M (A : Type) : Type := World → Completion A * World.

#[global] Instance M_ret : MRet M := λ A x w, (Normal x, w).
#[global] Instance M_bind : MBind M := λ A B f m w,
  match m w with
  | (Normal x, w') => f x w'
  | (Throw e, w') => (Throw e, w')
  end.

Definition throw {A : Type} (e : Value) : M A := λ w, (Throw e, w).

Definition emit (evs : list Event) : M unit := λ w,
  (Normal (), {| state := state w; listeners := listeners w; devTools := devTools w;
                 heap := heap w; clock := clock w; ticks := ticks w;
                 trace := trace w ++ evs |}).

(** [Date.now()]: the next reading of the clock. *)
Definition dateNow : M Z := λ w,
  (Normal (clock w (ticks w)),
   {| state := state w; listeners := listeners w; devTools := devTools w;
      heap := heap w; clock := clock w; ticks := S (ticks w); trace := trace w |}).

Definition readState : M State := λ w, (Normal (state w), w).

Definition writeState (s : State) : M unit := λ w,
  (Normal (), {| state := s; listeners := listeners w; devTools := devTools w;
                 heap := heap w; clock := clock w; ticks := ticks w;
                 trace := trace w |}).

Definition readListeners : M (list ListenerId) := λ w, (Normal (listeners w), w).

Definition writeListeners (ls : list ListenerId) : M unit := λ w,
  (Normal (), {| state := state w; listeners := ls; devTools := devTools w;
                 heap := heap w; clock := clock w; ticks := ticks w;
                 trace := trace w |}).

Definition writeHeap (h : list ActionObject) : M unit := λ w,
  (Normal (), {| state := state w; listeners := listeners w; devTools := devTools w;
                 heap := h; clock := clock w; ticks := ticks w; trace := trace w |}).

(** Reading the properties of [action]; nothing is read from a reference
    that names no object. *)
Definition readAction (action : ActionRef) : M (option Action) := λ w,
  (Normal (fields <$> heap w !! action), w).

(** Evaluating an object literal (or [Object.freeze] of one): the new
    object gets the next free address. *)
Definition newAction (object : ActionObject) : M ActionRef := λ w,
  (Normal (length (heap w)), (writeHeap (heap w ++ [object]) w).2).

(** The action with its timestamp set to [t]. *)
Definition stamped (t : Z) (action : Action) : Action :=
  {| type := type action; payload := payload action; timestamp := Some t |}.

(** [action.timestamp = t] in strict code: the object itself is changed;
    the assignment throws a [TypeError] when the object is frozen, and when
    [action] is not an object (a reference that names none stands for such
    an argument: [undefined], [null], a primitive). *)
Definition assignTimestamp (action : ActionRef) (t : Z) : M unit := λ w,
  match heap w !! action with
  | Some object =>
      if frozen object then (Throw TypeError, w)
      else writeHeap (<[action := {| fields := stamped t (fields object);
                                     frozen := frozen object |}]> (heap w)) w
  | None => (Throw TypeError, w)
  end.

(** [devTools.record(action, state)] on the recorder of the store. *)
Definition devTools_record (action : ActionRef) (s : State) : M unit := λ w,
  let '(d, ns) := DevTools.record action s (devTools w) in
  emit (EvDevTools <$> ns)
    {| state := state w; listeners := listeners w; devTools := d;
       heap := heap w; clock := clock w; ticks := ticks w; trace := trace w |}.

(** The events that a run added. *)
Definition events_since (w w' : World) : list Event :=
  drop (length (trace w)) (trace w').

(** [Array.prototype.forEach] and [Set.prototype.forEach], over callbacks
    that leave the collection alone. *)
Fixpoint forEach {A : Type} (f : A → M unit) (xs : list A) : M unit :=
  match xs with
  | [] => mret ()
  | x :: xs' => f x;; forEach f xs'
  end.

(* ===================================================================== *)
(** * store/types.ts : Store and Middleware *)
(* ===================================================================== *)

(** The argument of [setState]:
    [Partial<T> | ((state: T) => Partial<T>)].  [UOther] is any other
    value, which a caller that goes round the type checker can pass:
    [undefined], [null], a boolean, a number, a string, an array. *)
Inductive Updater : Type :=
| UObj (partial : State)
| UFun (f : State → State)
| UOther (v : Value).

(** [interface Store]. [subscribe] returns the unsubscribe closure. *)
Record Store : Type := mkStore {
  getState : M State;
  setState : Updater → M unit;
  subscribe : ListenerId → M (M unit);
  dispatch : ActionRef → M unit
}.

(** The body of a function written against the store: the calls it makes
    on [store] and on [next], in order, each continuation depending on
    what the call returned.  [CallNewAction] evaluates an object literal
    for an action, [CallReadAction] reads the properties of one.
    [CallOutside] is a call of a collaborator outside the store (the
    logger, [performance.now()]), kept by name: it touches nothing that the
    store owns. *)
Inductive Code (R : Type) : Type :=
| Ret (r : R)
| Raise (e : Value)
| CallNext (action : ActionRef) (k : Code R)
| CallGetState (k : State → Code R)
| CallSetState (updater : Updater) (k : Code R)
| CallSubscribe (listener : ListenerId) (k : Code R)
| CallDispatch (action : ActionRef) (k : Code R)
| CallDateNow (k : Z → Code R)
| CallNewAction (object : ActionObject) (k : ActionRef → Code R)
| CallReadAction (action : ActionRef) (k : option Action → Code R)
| CallOutside (callee : string) (k : Code R).
Arguments Ret {R} r.
Arguments Raise {R} e.
Arguments CallNext {R} action k.
Arguments CallGetState {R} k.
Arguments CallSetState {R} updater k.
Arguments CallSubscribe {R} listener k.
Arguments CallDispatch {R} action k.
Arguments CallDateNow {R} k.
Arguments CallNewAction {R} object k.
Arguments CallReadAction {R} action k.
Arguments CallOutside {R} callee k.

(** Running a body against a store and a [next]. *)
Fixpoint exec {R : Type} (store : Store) (next : ActionRef → M unit) (c : Code R) : M R :=
  match c with
  | Ret r => mret r
  | Raise e => throw e
  | CallNext action k => next action;; exec store next k
  | CallGetState k => s ← getState store; exec store next (k s)
  | CallSetState updater k => setState store updater;; exec store next k
  | CallSubscribe listener k => subscribe store listener;; exec store next k
  | CallDispatch action k => dispatch store action;; exec store next k
  | CallDateNow k => t ← dateNow; exec store next (k t)
  | CallNewAction object k => action ← newAction object; exec store next (k action)
  | CallReadAction action k => seen ← readAction action; exec store next (k seen)
  | CallOutside _ k => exec store next k
  end.

(** [type Middleware = (store, next) => NextHandler]: the body of the
    middleware returns the body of the handler of an action. *)
Abbreviation Middleware := (Code (ActionRef → Code unit)).

(* ===================================================================== *)
(** * middleware/index.ts *)
(* ===================================================================== *)

(** The closure that one step of the [reduceRight] in [applyMiddleware]
    builds: [(action) => { const nextHandler = middleware(store, next);
    nextHandler(action); }]. [index] is the position of [middleware] in the
    argument list and only labels the ghost event. *)
Definition wrap (store : Store) (next : ActionRef → M unit)
    (entry : nat * Middleware) : ActionRef → M unit :=
  λ action,
    emit [EvMiddleware entry.1 action];;
    nextHandler ← exec store next entry.2;
    exec store next (nextHandler action).

(** [applyMiddleware(...middlewares)(store)]. *)
Definition applyMiddleware (middlewares : list Middleware) (store : Store) : Store :=
  let dispatch := dispatch store in
  let dispatch :=
    reduceRight (wrap store) dispatch
      (zip (seq 0 (length middlewares)) middlewares) in
  {| getState := getState store;
     setState := setState store;
     subscribe := subscribe store;
     dispatch := dispatch |}.

(** [createLogger()]: reads the state, forwards the action, reads the
    state again and reports both to the logger. *)
Definition createLogger : Middleware :=
  Ret (λ action,
    CallGetState (λ prevState,
    CallOutside "performance.now"
      (CallNext action
         (CallGetState (λ nextState,
          CallOutside "performance.now"
            (CallOutside "logger.logAction"
               (CallOutside "logger.logPerformance" (Ret ())))))))).

(* ===================================================================== *)
(** * store/createStore.ts *)
(* ===================================================================== *)

(** [interface StoreOptions]. *)
Record StoreOptions : Type := mkStoreOptions {
  initialState : option State;
  opt_devTools : option bool;
  middleware : option (list Middleware)
}.

(** The fresh variables of a [createStore(options)] call.  [development]
    tells whether [process.env.NODE_ENV === 'development'], [clk] is the
    clock of the host, [objects] are the action objects that the program
    holds. *)
Definition initialWorld (development : bool) (clk : nat → Z)
    (objects : list ActionObject) (options : StoreOptions) : World :=
  {| state := default ∅ (initialState options);
     listeners := [];
     devTools := DevTools.new development
                   {| DevTools.opt_name := None;
                      DevTools.opt_enabled := opt_devTools options |};
     heap := objects;
     clock := clk; ticks := 0%nat; trace := [] |}.

(** [listener(state, action)]: the callback is handed the value of the
    variable [state] at that moment and the action object. *)
Definition call_listener (action : ActionRef) (listener : ListenerId) : M unit :=
  s ← readState;
  seen ← readAction action;
  emit [EvListener listener s action seen].

(** [listeners.forEach(listener => listener(state, action))]. *)
Definition notify (action : ActionRef) : M unit :=
  ls ← readListeners;
  forEach (call_listener action) ls.

(** [{ ...a, ...b }]. *)
Definition spread (a b : State) : State := b ∪ a.

(** The properties with keys ["0"], ["1"], ... of an array or a string. *)
Definition indexed (vs : list Value) : State :=
  list_to_map (zip (pretty <$> seq 0 (length vs)) vs).

(** The own enumerable properties of a value, which are what a spread
    [...v] copies: those of an object, the elements of an array, the
    characters of a string, none of [undefined], [null], a boolean or a
    number. *)
Definition own_properties (v : Value) : State :=
  match v with
  | VObj m => m
  | VArr xs => indexed xs
  | VStr s => indexed ((λ c, VStr (String c EmptyString)) <$> String.list_ascii_of_string s)
  | _ => ∅
  end.

Definition store_getState : M State := readState.

Definition store_setState (updater : Updater) : M unit :=
  s ← readState;
  let nextState := match updater with
                   | UFun f => VObj (f s)
                   | UObj partial => VObj partial
                   | UOther v => v
                   end in
  s ← readState;
  writeState (spread s (own_properties nextState));;
  t ← dateNow;
  action ← newAction {| fields := {| type := "SET_STATE"; payload := Some nextState;
                                     timestamp := Some t |};
                        frozen := false |};
  s ← readState;
  devTools_record action s;;
  notify action.

Definition store_unsubscribe (listener : ListenerId) : M unit :=
  ls ← readListeners;
  writeListeners (set_delete listener ls).

Definition store_subscribe (listener : ListenerId) : M (M unit) :=
  ls ← readListeners;
  writeListeners (set_add listener ls);;
  mret (store_unsubscribe listener).

Definition store_dispatch (action : ActionRef) : M unit :=
  emit [EvDispatch action];;
  t ← dateNow;
  assignTimestamp action t;;
  s ← readState;
  devTools_record action s;;
  notify action.

(** The object literal [store] inside [createStore]. *)
Definition baseStore : Store :=
  {| getState := store_getState;
     setState := store_setState;
     subscribe := store_subscribe;
     dispatch := store_dispatch |}.

(** [createStore(options)]: the returned object. *)
Definition createStore (options : StoreOptions) : Store :=
  let store := baseStore in
  match middleware options with
  | Some (m :: ms) => applyMiddleware (m :: ms) store
  | _ => store
  end.

(* ===================================================================== *)
(** * utils/logger.ts *)
(* ===================================================================== *)

(** [enum LogLevel]. *)
Module LogLevel.

Inductive t : Type := DEBUG | INFO | WARN | ERROR.

#[global] Instance level_eq_dec : EqDecision t.
Proof. solve_decision. Defined.

(** The string value of a member. *)
Definition value (level : t) : string :=
  match level with
  | DEBUG => "debug"
  | INFO => "info"
  | WARN => "warn"
  | ERROR => "error"
  end.

End LogLevel.

(** [enum LogCategory]. *)
Module LogCategory.

Inductive t : Type := STATE | ACTION | MIDDLEWARE | PERFORMANCE | ERROR.

#[global] Instance category_eq_dec : EqDecision t.
Proof. solve_decision. Defined.

Definition value (category : t) : string :=
  match category with
  | STATE => "state"
  | ACTION => "action"
  | MIDDLEWARE => "middleware"
  | PERFORMANCE => "performance"
  | ERROR => "error"
  end.

(** [Object.values(LogCategory)]. *)
Definition values : list t := [STATE; ACTION; MIDDLEWARE; PERFORMANCE; ERROR].

End LogCategory.

(** [String.prototype.toUpperCase] on ASCII strings; the logger applies
    it to the values of [LogLevel] only. *)
Definition upper_ascii (c : Ascii.ascii) : Ascii.ascii :=
  let n := Ascii.nat_of_ascii c in
  if ((97 <=? n) && (n <=? 122))%nat then Ascii.ascii_of_nat (n - 32) else c.

Fixpoint toUpperCase (s : string) : string :=
  match s with
  | EmptyString => EmptyString
  | String c s' => String (upper_ascii c) (toUpperCase s')
  end.

Module Logger.

(** The [data] of an entry: absent, a value handed to [debug], [info],
    [warn] or [error], or one of the object literals that the specialised
    methods build. *)
Inductive Data : Type :=
| NoData
| DataValue (v : Value)
| DataAction (action : Action) (prevState nextState : State)
| DataStateChange (prevState nextState : State)
| DataMiddleware (action : Action)
| DataPerformance (duration : Value).

(** [interface LogEntry]. *)
Record LogEntry : Type := mkLogEntry {
  timestamp : Z;
  level : LogLevel.t;
  category : LogCategory.t;
  message : string;
  data : Data;
  stack : option string
}.

Inductive Format : Type := JSON | TEXT.

(** [interface LoggerOptions]. *)
Record Options : Type := mkOptions {
  opt_enabled : option bool;
  opt_level : option LogLevel.t;
  opt_categories : option (list LogCategory.t);
  opt_persist : option bool;
  opt_maxEntries : option Z;
  opt_format : option Format
}.

(** The private fields of [class Logger].  Of the set [categories] only
    membership is ever asked, so it is kept as the list it was built
    from. *)
Record t : Type := mk {
  enabled : bool;
  threshold : LogLevel.t;
  categories : list LogCategory.t;
  persist : bool;
  maxEntries : Z;
  format : Format;
  entries : list LogEntry
}.

(** What the host provides: [Date.now()] at each reading of the clock,
    [new Error().stack] at that reading, [new Date(t).toISOString()] and
    [JSON.stringify], which returns a text or throws (a [TypeError] on a
    circular structure or a BigInt in the data, or what a [toJSON] method
    of the data throws). *)
Record Host : Type := mkHost {
  now : nat → Z;
  error_stack : nat → string;
  toISOString : Z → string;
  JSON_stringify : LogEntry → Completion string
}.

(** One call of [console.debug], [console.info], [console.warn] or
    [console.error], named by the level. *)
Record ConsoleCall : Type := mkConsoleCall {
  console_method : LogLevel.t;
  console_text : string;
  console_data : Data
}.

(** A logger, the readings of the clock so far and the console. *)
Record World : Type := mkWorld {
  self : t;
  ticks : nat;
  console : list ConsoleCall
}.

(** [constructor(options = {})]. *)
Definition new (development : bool) (options : Options) : t :=
  {| enabled := default development (opt_enabled options);
     threshold := default LogLevel.INFO (opt_level options);
     categories := default LogCategory.values (opt_categories options);
     persist := default false (opt_persist options);
     maxEntries := default 1000 (opt_maxEntries options);
     format := default TEXT (opt_format options);
     entries := [] |}.

(** [private getLevelPriority(level)]. *)
Definition getLevelPriority (lv : LogLevel.t) : Z :=
  match lv with
  | LogLevel.DEBUG => 0
  | LogLevel.INFO => 1
  | LogLevel.WARN => 2
  | LogLevel.ERROR => 3
  end.

(** [private shouldLog(level, category)]. *)
Definition shouldLog (lv : LogLevel.t) (cat : LogCategory.t) (lg : t) : bool :=
  if negb (enabled lg) then false
  else if negb (bool_decide (cat ∈ categories lg)) then false
  else getLevelPriority lv >=? getLevelPriority (threshold lg).

(** [private createEntry(level, category, message, data)]: reads the
    clock. *)
Definition createEntry (host : Host) (lv : LogLevel.t) (cat : LogCategory.t)
    (msg : string) (d : Data) (w : World) : LogEntry * World :=
  ({| timestamp := now host (ticks w);
      level := lv; category := cat; message := msg; data := d;
      stack := if decide (lv = LogLevel.ERROR)
               then Some (error_stack host (ticks w)) else None |},
   {| self := self w; ticks := S (ticks w); console := console w |}).

(** The line of the text format. *)
Definition text_line (host : Host) (entry : LogEntry) : string :=
  ("[" ++ toISOString host (timestamp entry) ++ "] ["
   ++ toUpperCase (LogLevel.value (level entry)) ++ "] ["
   ++ LogCategory.value (category entry) ++ "] " ++ message entry)%string.

(** [private formatEntry(entry)]: it throws when [JSON.stringify] does. *)
Definition formatEntry (host : Host) (fmt : Format) (entry : LogEntry)
    : Completion string :=
  match fmt with
  | JSON => JSON_stringify host entry
  | TEXT => Normal (text_line host entry)
  end.

(** [private log(entry)]: the entry is stored before it is formatted, so
    that an entry whose formatting throws is stored and not written. *)
Definition log (host : Host) (entry : LogEntry) (w : World) : Completion unit * World :=
  let lg := self w in
  if negb (shouldLog (level entry) (category entry) lg) then (Normal (), w)
  else
    let pushed := entries lg ++ [entry] in
    let kept :=
      if persist lg
      then (if Z.of_nat (length pushed) >? maxEntries lg then shift pushed else pushed)
      else entries lg in
    let lg' := {| enabled := enabled lg; threshold := threshold lg;
                  categories := categories lg; persist := persist lg;
                  maxEntries := maxEntries lg; format := format lg;
                  entries := kept |} in
    match formatEntry host (format lg) entry with
    | Throw e => (Throw e, {| self := lg'; ticks := ticks w; console := console w |})
    | Normal formattedMessage =>
        (Normal (),
         {| self := lg'; ticks := ticks w;
            console := console w
                       ++ [{| console_method := level entry;
                              console_text := formattedMessage;
                              console_data := data entry |}] |})
    end.

(** [debug], [info], [warn] and [error]:
    [this.log(this.createEntry(LEVEL, category, message, data))]. *)
Definition log_at (host : Host) (lv : LogLevel.t) (cat : LogCategory.t)
    (msg : string) (d : Data) (w : World) : Completion unit * World :=
  let '(entry, w') := createEntry host lv cat msg d w in log host entry w'.

Definition debug (host : Host) := log_at host LogLevel.DEBUG.
Definition info (host : Host) := log_at host LogLevel.INFO.
Definition warn (host : Host) := log_at host LogLevel.WARN.
Definition error (host : Host) := log_at host LogLevel.ERROR.

(** [logAction(action, prevState, nextState)]. *)
Definition logAction (host : Host) (action : Action) (prevState nextState : State)
    : World → Completion unit * World :=
  info host LogCategory.ACTION ("Action: " ++ type action)%string
    (DataAction action prevState nextState).

(** [logStateChange(prevState, nextState)]. *)
Definition logStateChange (host : Host) (prevState nextState : State)
    : World → Completion unit * World :=
  debug host LogCategory.STATE "State changed" (DataStateChange prevState nextState).

(** [logMiddleware(middlewareName, action)]. *)
Definition logMiddleware (host : Host) (middlewareName : string) (action : Action)
    : World → Completion unit * World :=
  debug host LogCategory.MIDDLEWARE ("Middleware: " ++ middlewareName)%string
    (DataMiddleware action).

(** [logPerformance(operation, duration)]. *)
Definition logPerformance (host : Host) (operation : string) (duration : Value)
    : World → Completion unit * World :=
  debug host LogCategory.PERFORMANCE ("Operation: " ++ operation)%string
    (DataPerformance duration).

Definition with_self (f : t → t) (w : World) : World :=
  {| self := f (self w); ticks := ticks w; console := console w |}.

(** [getEntries()] returns a copy. *)
Definition getEntries (w : World) : list LogEntry := entries (self w).

(** [clearEntries()]. *)
Definition clearEntries : World → World :=
  with_self (λ lg, {| enabled := enabled lg; threshold := threshold lg;
                      categories := categories lg; persist := persist lg;
                      maxEntries := maxEntries lg; format := format lg;
                      entries := [] |}).

(** [setLevel(level)]. *)
Definition setLevel (lv : LogLevel.t) : World → World :=
  with_self (λ lg, {| enabled := enabled lg; threshold := lv;
                      categories := categories lg; persist := persist lg;
                      maxEntries := maxEntries lg; format := format lg;
                      entries := entries lg |}).

(** [setCategories(categories)]. *)
Definition setCategories (cats : list LogCategory.t) : World → World :=
  with_self (λ lg, {| enabled := enabled lg; threshold := threshold lg;
                      categories := cats; persist := persist lg;
                      maxEntries := maxEntries lg; format := format lg;
                      entries := entries lg |}).

Definition set_enabled (b : bool) : World → World :=
  with_self (λ lg, {| enabled := b; threshold := threshold lg;
                      categories := categories lg; persist := persist lg;
                      maxEntries := maxEntries lg; format := format lg;
                      entries := entries lg |}).

(** [enable()] and [disable()]. *)
Definition enable : World → World := set_enabled true.
Definition disable : World → World := set_enabled false.

(** ** Runs of calls *)

Inductive Call : Type :=
| CallLog (lv : LogLevel.t) (cat : LogCategory.t) (msg : string) (d : Data)
| CallLogAction (action : Action) (prevState nextState : State)
| CallLogStateChange (prevState nextState : State)
| CallLogMiddleware (middlewareName : string) (action : Action)
| CallLogPerformance (operation : string) (duration : Value)
| CallClearEntries
| CallSetLevel (lv : LogLevel.t)
| CallSetCategories (cats : list LogCategory.t)
| CallEnable
| CallDisable.

(** One call: how it ends and the logger afterwards. *)
Definition call (host : Host) (c : Call) (w : World) : Completion unit * World :=
  match c with
  | CallLog lv cat msg d => log_at host lv cat msg d w
  | CallLogAction action prevState nextState => logAction host action prevState nextState w
  | CallLogStateChange prevState nextState => logStateChange host prevState nextState w
  | CallLogMiddleware middlewareName action => logMiddleware host middlewareName action w
  | CallLogPerformance operation duration => logPerformance host operation duration w
  | CallClearEntries => (Normal (), clearEntries w)
  | CallSetLevel lv => (Normal (), setLevel lv w)
  | CallSetCategories cats => (Normal (), setCategories cats w)
  | CallEnable => (Normal (), enable w)
  | CallDisable => (Normal (), disable w)
  end.

(** The logger after a run of calls by a caller that catches what a call
    throws and goes on with the next call. *)
Definition run (host : Host) (calls : list Call) (w : World) : World :=
  fold_left (λ w c, (call host c w).2) calls w.

(** The world of a logger that was just constructed. *)
Definition fresh (development : bool) (options : Options) : World :=
  {| self := new development options; ticks := 0%nat; console := [] |}.

(** The console call that [log] makes for an entry, none when the
    formatting of the entry throws. *)
Definition console_call (host : Host) (fmt : Format) (entry : LogEntry)
    : option ConsoleCall :=
  match formatEntry host fmt entry with
  | Normal formattedMessage =>
      Some {| console_method := level entry;
              console_text := formattedMessage;
              console_data := data entry |}
  | Throw _ => None
  end.


End Logger.


(** The fields of a logger that no method changes. *)
Definition same_settings (w w' : Logger.World) : Prop :=
  Logger.persist (Logger.self w') = Logger.persist (Logger.self w) ∧
  Logger.maxEntries (Logger.self w') = Logger.maxEntries (Logger.self w) ∧
  Logger.format (Logger.self w') = Logger.format (Logger.self w).

(** What holds of the stored entries and the console at all times: the
    console calls for the stored entries whose formatting does not throw
    are the last calls made. *)
Definition logger_inv (host : Logger.Host) (w : Logger.World) : Prop :=
  let lg := Logger.self w in
  Z.of_nat (length (Logger.entries lg)) ≤ Z.max 0 (Logger.maxEntries lg) ∧
  (Logger.persist lg = false → Logger.entries lg = []) ∧
  omap (Logger.console_call host (Logger.format lg)) (Logger.entries lg)
    `suffix_of` Logger.console w.

(** The formatting of no entry throws: the format is text, or
    [JSON.stringify] returns on every entry. *)
Definition formats_all (host : Logger.Host) (fmt : Logger.Format) : Prop :=
  ∀ entry, ∃ text, Logger.formatEntry host fmt entry = Normal text.

(** With [persist] on and no [clearEntries], the stored entries are the
    newest console calls, as many as the bound allows. *)
Definition logger_newest (host : Logger.Host) (w : Logger.World) : Prop :=
  let lg := Logger.self w in
  omap (Logger.console_call host (Logger.format lg)) (Logger.entries lg)
  = drop (Z.to_nat (Z.of_nat (length (Logger.console w))
                    - Z.max 0 (Logger.maxEntries lg)))
      (Logger.console w).





(* ===================================================================== *)
(** * Predicates used to state the properties *)
(* ===================================================================== *)

(** The invariant of the two histories of the recorder. *)
Definition history_inv (d : DevTools.t) : Prop :=
  length (DevTools.stateHistory d) = length (DevTools.actionHistory d) ∧
  Z.of_nat (length (DevTools.stateHistory d)) ≤ DevTools.maxHistorySize d.

(** The partial update that a [setState] argument stands for in state [s]. *)
Definition partial_of (updater : Updater) (s : State) : State :=
  match updater with
  | UObj partial => partial
  | UFun f => f s
  | UOther v => own_properties v
  end.

(** The payload of the [SET_STATE] action that [setState] builds. *)
Definition payload_of (updater : Updater) (s : State) : Value :=
  match updater with
  | UObj partial => VObj partial
  | UFun f => VObj (f s)
  | UOther v => v
  end.

(** Shallow merge, in the words of the specification: a key of the update
    takes the update's value whole, any other key keeps its value. *)
Definition shallowMerge (current partial : State) : State :=
  merge (λ old new, match new with Some v => Some v | None => old end)
    current partial.

(** The left-to-right fold of shallow merges over a sequence of updates. *)
Definition merge_fold (initial : State) (updaters : list Updater) : State :=
  fold_left (λ s updater, shallowMerge s (partial_of updater s)) updaters initial.

(** A sequence of [setState] calls on a store. *)
Fixpoint setState_all (store : Store) (updaters : list Updater) : M unit :=
  match updaters with
  | [] => mret ()
  | updater :: rest => setState store updater;; setState_all store rest
  end.

(** The world in which the raw [store.dispatch(action)] ends when the
    assignment to [action.timestamp] throws. *)
Definition dispatch_entered (action : ActionRef) (w : World) : World :=
  {| state := state w; listeners := listeners w; devTools := devTools w;
     heap := heap w; clock := clock w; ticks := S (ticks w);
     trace := trace w ++ [EvDispatch action] |}.

(** The world after the raw [store.dispatch(action)] on an object that is
    not frozen. *)
Definition dispatch_done (action : ActionRef) (object : ActionObject) (w : World)
    : World :=
  let properties := stamped (clock w (ticks w)) (fields object) in
  let r := DevTools.record action (state w) (devTools w) in
  {| state := state w; listeners := listeners w; devTools := r.1;
     heap := <[action := {| fields := properties; frozen := frozen object |}]> (heap w);
     clock := clock w; ticks := S (ticks w);
     trace := trace w ++ [EvDispatch action] ++ (EvDevTools <$> r.2)
              ++ ((λ l, EvListener l (state w) action (Some properties))
                    <$> listeners w) |}.

(** ** Concrete data for the examples *)

Definition count_state (n : Z) : State := {[ "count" := VNum n ]}.

(** The properties of the action numbered [n]. *)
Definition numbered_fields (n : Z) : Action :=
  {| type := "ACTION"; payload := Some (VNum n); timestamp := None |}.

(** The action objects of the examples: at the addresses 0 to 10 the
    actions numbered 0 to 10, then an action that comes with a timestamp,
    an action whose type is the empty string, and a frozen action. *)
Definition sample_objects : list ActionObject :=
  ((λ n, {| fields := numbered_fields n; frozen := false |})
     <$> [0; 1; 2; 3; 4; 5; 6; 7; 8; 9; 10])
  ++ [{| fields := {| type := "X"; payload := None; timestamp := Some 5 |};
         frozen := false |};
      {| fields := {| type := ""; payload := None; timestamp := None |};
         frozen := false |};
      {| fields := {| type := "X"; payload := None; timestamp := None |};
         frozen := true |}].

Definition numbered_action (n : Z) : ActionRef := Z.to_nat n.
Definition frozen_action : ActionRef := 13%nat.

Definition no_options : DevTools.Options :=
  {| DevTools.opt_name := None; DevTools.opt_enabled := None |}.

(** Scenario 4: bound 5, then ten records. *)
Definition scenario4_ops : list DevTools.Op :=
  DevTools.OpSetMaxHistorySize 5
  :: ((λ n, DevTools.OpRecord (numbered_action n) (count_state n))
        <$> [1; 2; 3; 4; 5; 6; 7; 8; 9; 10]).

Definition scenario4_recorder : DevTools.t :=
  from_option fst (DevTools.new true no_options)
    (DevTools.run scenario4_ops (DevTools.new true no_options)).

(** A store with recording on, one listener, the action objects of the
    examples, and a clock that shows 1000. *)
Definition plain_options : StoreOptions :=
  {| initialState := Some (count_state 0); opt_devTools := Some true;
     middleware := None |}.

Definition plain_world : World :=
  {| state := count_state 0; listeners := [7%nat];
     devTools := DevTools.new true no_options;
     heap := sample_objects;
     clock := λ _, 1000; ticks := 0; trace := [] |}.

(** ** Middleware chains *)

(** The chain that [applyMiddleware] builds over an innermost function
    [inner]; [applyMiddleware] takes [store.dispatch] for it. *)
Definition chain (store : Store) (inner : ActionRef → M unit) (ms : list Middleware)
    : ActionRef → M unit :=
  reduceRight (wrap store) inner (zip (seq 0 (length ms)) ms).

(** The same chain written from its outer end: the middleware registered
    first wraps the chain of the others. [i] is the position of the head of
    [ms] in the registered list. *)
Fixpoint nest (store : Store) (inner : ActionRef → M unit) (i : nat)
    (ms : list Middleware) : ActionRef → M unit :=
  match ms with
  | [] => inner
  | m :: ms' => wrap store (nest store inner (S i) ms') (i, m)
  end.

(** The chain in the words of the specification: the handlers are invoked
    in the order of registration.  The middleware registered first is
    called with the store and, as [next], the chain of those registered
    after it, and the handler it returns is called with the dispatched
    action; the raw dispatch comes last, when the last handler calls its
    [next].  [i] is the position of the head of [ms]. *)
Fixpoint pipeline (store : Store) (inner : ActionRef → M unit) (i : nat)
    (ms : list Middleware) : ActionRef → M unit :=
  match ms with
  | [] => inner
  | m :: ms' =>
      λ action,
        emit [EvMiddleware i action];;
        nextHandler ← exec store (pipeline store inner (S i) ms') m;
        exec store (pipeline store inner (S i) ms') (nextHandler action)
  end.

(** What a wrapper does after its ghost mark. *)
Definition handle (store : Store) (next : ActionRef → M unit) (m : Middleware)
    (action : ActionRef) : M unit :=
  nextHandler ← exec store next m;
  exec store next (nextHandler action).

(** Calls that a body is allowed to make, besides reading the state, the
    clock and action objects, creating action objects and subscribing. *)
Record Allowed : Type := mkAllowed {
  allow_next : bool;
  allow_setState : bool;
  allow_dispatch : bool
}.

(** [Uses al Q c]: the body [c] makes only calls that [al] allows, and what
    it returns satisfies [Q]. *)
Fixpoint Uses (al : Allowed) {R : Type} (Q : R → Prop) (c : Code R) : Prop :=
  match c with
  | Ret r => Q r
  | Raise _ => True
  | CallNext _ k => allow_next al = true ∧ Uses al Q k
  | CallGetState k => ∀ s, Uses al Q (k s)
  | CallSetState _ k => allow_setState al = true ∧ Uses al Q k
  | CallSubscribe _ k => Uses al Q k
  | CallDispatch _ k => allow_dispatch al = true ∧ Uses al Q k
  | CallDateNow k => ∀ t, Uses al Q (k t)
  | CallNewAction _ k => ∀ action, Uses al Q (k action)
  | CallReadAction _ k => ∀ seen, Uses al Q (k seen)
  | CallOutside _ k => Uses al Q k
  end.

Definition uses (al : Allowed) (m : Middleware) : Prop :=
  Uses al (λ handler, ∀ action, Uses al (λ _, True) (handler action)) m.

(** Every call is allowed. *)
Definition allow_all : Allowed :=
  {| allow_next := true; allow_setState := true; allow_dispatch := true |}.

(** The calls that both allow. *)
Definition allow_both (al1 al2 : Allowed) : Allowed :=
  {| allow_next := allow_next al1 && allow_next al2;
     allow_setState := allow_setState al1 && allow_setState al2;
     allow_dispatch := allow_dispatch al1 && allow_dispatch al2 |}.

(** The middleware never calls [next]: neither its body nor the handler it
    returns. *)
Definition never_calls_next : Middleware → Prop :=
  uses {| allow_next := false; allow_setState := true; allow_dispatch := true |}.

(** The middleware calls neither [store.setState] nor [store.dispatch]. *)
Definition leaves_store_alone : Middleware → Prop :=
  uses {| allow_next := true; allow_setState := false; allow_dispatch := false |}.

(** [Forwards n Q c]: on every path the body [c] calls [next] exactly [n]
    times, returns a value that satisfies [Q], does not throw and does not
    call [store.dispatch] itself. *)
Fixpoint Forwards {R : Type} (n : nat) (Q : R → Prop) (c : Code R) : Prop :=
  match c with
  | Ret r => n = 0%nat ∧ Q r
  | Raise _ => False
  | CallNext _ k => match n with O => False | S n' => Forwards n' Q k end
  | CallGetState k => ∀ s, Forwards n Q (k s)
  | CallSetState _ k => Forwards n Q k
  | CallSubscribe _ k => Forwards n Q k
  | CallDispatch _ _ => False
  | CallDateNow k => ∀ t, Forwards n Q (k t)
  | CallNewAction _ k => ∀ action, Forwards n Q (k action)
  | CallReadAction _ k => ∀ seen, Forwards n Q (k seen)
  | CallOutside _ k => Forwards n Q k
  end.

(** The middleware builds its handler without calling [next], and the
    handler passes every action on exactly once. *)
Definition forwards_once (m : Middleware) : Prop :=
  Forwards 0 (λ handler, ∀ action, Forwards 1 (λ _, True) (handler action)) m.

(** The body [c] followed by the body [k]. *)
Fixpoint then_ {R : Type} (c : Code unit) (k : Code R) : Code R :=
  match c with
  | Ret _ => k
  | Raise e => Raise e
  | CallNext action c' => CallNext action (then_ c' k)
  | CallGetState f => CallGetState (λ s, then_ (f s) k)
  | CallSetState updater c' => CallSetState updater (then_ c' k)
  | CallSubscribe listener c' => CallSubscribe listener (then_ c' k)
  | CallDispatch action c' => CallDispatch action (then_ c' k)
  | CallDateNow f => CallDateNow (λ t, then_ (f t) k)
  | CallNewAction object f => CallNewAction object (λ action, then_ (f action) k)
  | CallReadAction action f => CallReadAction action (λ seen, then_ (f seen) k)
  | CallOutside callee c' => CallOutside callee (then_ c' k)
  end.

(** [(store, next) => (action) => { before; next(action); after }]: a
    middleware whose handler does something of its own before and after
    it passes the action on. *)
Definition around (before after : ActionRef → Code unit) : Middleware :=
  Ret (λ action, then_ (before action) (CallNext action (after action))).

(** The body makes no call of [next]. *)
Definition calls_no_next (c : Code unit) : Prop :=
  Uses {| allow_next := false; allow_setState := true; allow_dispatch := true |}
    (λ _, True) c.

(** Running a body that makes no call of [next] on the store object. *)
Definition run_body (c : Code unit) : M unit := exec baseStore (λ _, mret ()) c.

(** The handlers of [around] middleware laid out in a row: what each does
    before [next], in the order of registration, then the raw dispatch,
    then what each does after [next], in the reverse order. *)
Fixpoint onion (i : nat)
    (hs : list ((ActionRef → Code unit) * (ActionRef → Code unit)))
    (action : ActionRef) : M unit :=
  match hs with
  | [] => store_dispatch action
  | h :: hs' =>
      emit [EvMiddleware i action];;
      run_body (h.1 action);;
      onion (S i) hs' action;;
      run_body (h.2 action)
  end.

(** The calls of handlers and of the raw dispatch among the events. *)
Inductive Invocation : Type :=
| InvMiddleware (index : nat)
| InvRawDispatch.

Definition invocation_of (e : Event) : option Invocation :=
  match e with
  | EvMiddleware i _ => Some (InvMiddleware i)
  | EvDispatch _ => Some InvRawDispatch
  | _ => None
  end.

Definition invocations (evs : list Event) : list Invocation := omap invocation_of evs.

Definition is_middleware_event (e : Event) : Prop :=
  match e with
  | EvMiddleware _ _ => True
  | _ => False
  end.

(** No wrapper is entered in [evs]. *)
Definition silent (evs : list Event) : Prop :=
  Forall (λ e, ¬ is_middleware_event e) evs.

(** Only wrappers are entered in [evs]: no raw dispatch, no listener of the
    store, no listener of the recorder. *)
Definition only_wrappers (evs : list Event) : Prop := Forall is_middleware_event evs.

(** Every wrapper entered in [evs] has an index of at least [i], and one
    with a larger index is entered only after the wrapper just before it. *)
Definition ordered_from (i : nat) (evs : list Event) : Prop :=
  ∀ k j a, evs !! k = Some (EvMiddleware j a) →
    (i ≤ j)%nat ∧
    ((i < j)%nat → ∃ k' a', (k' < k)%nat ∧ evs !! k' = Some (EvMiddleware (pred j) a')).

(** Every wrapper entered in [evs] has an index below [n]. *)
Definition indices_below (n : nat) (evs : list Event) : Prop :=
  ∀ j a, EvMiddleware j a ∈ evs → (j < n)%nat.

(** [w'] is [w] after more events, which satisfy [P]. *)
Definition grows (P : list Event → Prop) : relation World :=
  λ w w', ∃ evs, trace w' = trace w ++ evs ∧ P evs.

(** [w'] is [w] after more events, which satisfy [P], with the state, the
    recorder and the action objects of [w] untouched. *)
Definition grows_quietly (P : list Event → Prop) : relation World :=
  λ w w', state w' = state w ∧ devTools w' = devTools w ∧
          heap w `prefix_of` heap w' ∧ grows P w w'.

(** Properties of event lists that concatenation preserves. *)
Class Closed (P : list Event → Prop) : Prop := {
  closed_nil : P [];
  closed_app evs1 evs2 : P evs1 → P evs2 → P (evs1 ++ evs2)
}.

(** Every run of [c] relates the world before to the world after. *)
Definition preserves (R : relation World) {A : Type} (c : M A) : Prop :=
  ∀ w, R w (c w).2.

(** [c] returns normally, adding events whose invocations are [invs]. *)
Definition returns_invoking {A : Type} (Q : A → Prop) (invs : list Invocation)
    (c : M A) : Prop :=
  ∀ w, ∃ x w' evs, c w = (Normal x, w') ∧ trace w' = trace w ++ evs ∧
                   invocations evs = invs ∧ Q x.

(** [c] ends, by returning a value that satisfies [Q] or by throwing a
    [TypeError], having added events whose invocations are [invs]. *)
Definition ends_invoking {A : Type} (Q : A → Prop) (invs : list Invocation)
    (c : M A) : Prop :=
  ∀ w, ∃ evs, trace (c w).2 = trace w ++ evs ∧ invocations evs = invs ∧
              match (c w).1 with
              | Normal x => Q x
              | Throw e => e = TypeError
              end.

(** ** Concrete middleware for the examples *)

(** [(store, next) => (action) => { next(action); }]. *)
Definition passing : Middleware := Ret (λ action, CallNext action (Ret ())).

(** [(store, next) => (action) => {}]. *)
Definition halting : Middleware := Ret (λ _, Ret ()).

(** [(store, next) => (action) => { store.getState(); next(action);
    store.setState({ seen: true }); }]. *)
Definition marking : Middleware :=
  Ret (λ action,
         CallGetState (λ _,
           CallNext action (CallSetState (UObj {[ "seen" := VBool true ]}) (Ret ())))).

(** [(store, next) => (action) => { store.setState({ entered: name });
    next(action); store.setState({ left: name }); }]. *)
Definition announcing (name : string)
    : (ActionRef → Code unit) * (ActionRef → Code unit) :=
  (λ _, CallSetState (UObj {[ "entered" := VStr name ]}) (Ret ()),
   λ _, CallSetState (UObj {[ "left" := VStr name ]}) (Ret ())).

Definition chain_options (ms : list Middleware) : StoreOptions :=
  {| initialState := Some (count_state 0); opt_devTools := Some true;
     middleware := Some ms |}.

(* ===================================================================== *)
(** * Runs of calls, for the properties beyond the specification *)
(* ===================================================================== *)

(** A run of [record(action, state)] calls, the oldest call first. *)
Definition record_all (calls : list (ActionRef * State)) (d : DevTools.t) : DevTools.t :=
  fold_left (λ d call, (DevTools.record call.1 call.2 d).1) calls d.

(** A call that a user of the store makes. [DoUnsubscribe l] calls the
    closure that [subscribe(l)] returned. *)
Inductive StoreCall : Type :=
| DoGetState
| DoSetState (updater : Updater)
| DoSubscribe (listener : ListenerId)
| DoUnsubscribe (listener : ListenerId)
| DoDispatch (action : ActionRef).

Definition do_call (store : Store) (call : StoreCall) : M unit :=
  match call with
  | DoGetState => getState store;; mret ()
  | DoSetState updater => setState store updater
  | DoSubscribe listener => subscribe store listener;; mret ()
  | DoUnsubscribe listener => store_unsubscribe listener
  | DoDispatch action => dispatch store action
  end.

(** A run of calls; it stops at the first call that throws. *)
Fixpoint do_calls (store : Store) (calls : list StoreCall) : M unit :=
  match calls with
  | [] => mret ()
  | call :: rest => do_call store call;; do_calls store rest
  end.

Definition is_recorder_event (e : Event) : Prop :=
  match e with
  | EvDevTools _ => True
  | _ => False
  end.

(** What holds of the variables of a store at all times; [en] is the
    enabled flag its recorder was built with. *)
Definition store_inv (en : bool) (w : World) : Prop :=
  NoDup (listeners w) ∧
  DevTools.enabled (devTools w) = en ∧
  DevTools.listeners (devTools w) = [] ∧
  DevTools.maxHistorySize (devTools w) = 100 ∧
  history_inv (devTools w) ∧
  (en = false → DevTools.stateHistory (devTools w) = []) ∧
  (∀ s, last (DevTools.stateHistory (devTools w)) = Some s → s = state w) ∧
  Forall (λ e, ¬ is_recorder_event e) (trace w).

(** A run that keeps a property of the world. *)
Definition keeps (I : World → Prop) : relation World := λ w w', I w → I w'.

(** The body never calls [store.subscribe] with the callback [l]. *)
Fixpoint NoSubscribe (l : ListenerId) {R : Type} (Q : R → Prop) (c : Code R) : Prop :=
  match c with
  | Ret r => Q r
  | Raise _ => True
  | CallNext _ k => NoSubscribe l Q k
  | CallGetState k => ∀ s, NoSubscribe l Q (k s)
  | CallSetState _ k => NoSubscribe l Q k
  | CallSubscribe l' k => l' ≠ l ∧ NoSubscribe l Q k
  | CallDispatch _ k => NoSubscribe l Q k
  | CallDateNow k => ∀ t, NoSubscribe l Q (k t)
  | CallNewAction _ k => ∀ action, NoSubscribe l Q (k action)
  | CallReadAction _ k => ∀ seen, NoSubscribe l Q (k seen)
  | CallOutside _ k => NoSubscribe l Q k
  end.

Definition never_subscribes (l : ListenerId) (m : Middleware) : Prop :=
  NoSubscribe l (λ handler, ∀ action, NoSubscribe l (λ _, True) (handler action)) m.

(** Since [w] the callback [l] has stayed out of the listener set and has
    not been called. *)
Definition stays_out (l : ListenerId) : relation World :=
  λ w w', l ∉ listeners w →
    (l ∉ listeners w') ∧
    ∃ evs, trace w' = trace w ++ evs ∧
           Forall (λ e, ∀ s a seen, e ≠ EvListener l s a seen) evs.


(** The properties of the objects that a chain of transforming middleware
    creates, one after the other, from an action with the properties
    [action]. *)
Fixpoint transformed (fs : list (Action → Action)) (action : Action) : list Action :=
  match fs with
  | [] => []
  | f :: fs' => f action :: transformed fs' (f action)
  end.








(** ** Concrete data for the examples of the further properties *)

(** A host whose [JSON.stringify] throws on an entry without data and
    returns on the others. *)
Definition sample_host : Logger.Host :=
  {| Logger.now := λ n, 1000 + Z.of_nat n;
     Logger.error_stack := λ _, "Error at <anonymous>";
     Logger.toISOString := λ _, "1970-01-01T00:00:01.000Z";
     Logger.JSON_stringify := λ entry,
       match Logger.data entry with
       | Logger.NoData => Throw TypeError
       | _ => Normal "{}"
       end |}.

Definition json_logger_options : Logger.Options :=
  {| Logger.opt_enabled := Some true; Logger.opt_level := None;
     Logger.opt_categories := None; Logger.opt_persist := Some true;
     Logger.opt_maxEntries := None; Logger.opt_format := Some Logger.JSON |}.

Definition small_logger_options : Logger.Options :=
  {| Logger.opt_enabled := Some true; Logger.opt_level := None;
     Logger.opt_categories := None; Logger.opt_persist := Some true;
     Logger.opt_maxEntries := Some 2; Logger.opt_format := None |}.

Definition three_warnings : list Logger.Call :=
  [Logger.CallLog LogLevel.WARN LogCategory.STATE "one" Logger.NoData;
   Logger.CallLog LogLevel.WARN LogCategory.STATE "two" Logger.NoData;
   Logger.CallLog LogLevel.ERROR LogCategory.ERROR "three" Logger.NoData].



Definition two_records : list (ActionRef * State) :=
  [(numbered_action 1, count_state 1); (numbered_action 2, count_state 2)].


(* ===================================================================== *)
(** * Properties of the history recorder *)
(* ===================================================================== *)

Section recorder.

Implicit Types (d : DevTools.t) (sh : list State) (ah : list ActionRef).

Lemma shift_length {A : Type} (l : list A) : length (shift l) = (length l - 1)%nat.
Proof. unfold shift. by rewrite length_drop. Qed.

(** With a non-negative bound the loop of [setMaxHistorySize] stops within
    as many iterations as the state history is long, having dropped the
    same number of oldest entries from both histories. *)
Lemma evictLoop_spec fuel size sh ah :
  0 ≤ size → (length sh ≤ fuel)%nat →
  DevTools.evictLoop fuel size sh ah =
    Some (drop (Z.to_nat (Z.of_nat (length sh) - size)) sh,
          drop (Z.to_nat (Z.of_nat (length sh) - size)) ah).
Proof.
  intros Hsize. revert sh ah.
  induction fuel as [|fuel IH]; intros sh ah Hfuel; simpl.
  - destruct (Z.gtb_spec (Z.of_nat (length sh)) size); [lia|].
    by replace (Z.to_nat (Z.of_nat (length sh) - size)) with 0%nat by lia.
  - destruct (Z.gtb_spec (Z.of_nat (length sh)) size) as [Hgt|Hle].
    + rewrite IH by (rewrite shift_length; lia).
      rewrite shift_length. unfold shift. rewrite !drop_drop.
      do 2 f_equal; f_equal; lia.
    + by replace (Z.to_nat (Z.of_nat (length sh) - size)) with 0%nat by lia.
Qed.

(** More fuel does not change a result. *)
Lemma evictLoop_more_fuel fuel fuel' size sh ah r :
  DevTools.evictLoop fuel size sh ah = Some r → (fuel ≤ fuel')%nat →
  DevTools.evictLoop fuel' size sh ah = Some r.
Proof.
  revert fuel' sh ah.
  induction fuel as [|fuel IH]; intros fuel' sh ah; simpl.
  - destruct (Z.gtb_spec (Z.of_nat (length sh)) size) as [Hgt|Hle]; [done|].
    intros [= <-] _. destruct fuel'; simpl;
      by destruct (Z.gtb_spec (Z.of_nat (length sh)) size); [lia|].
  - destruct (Z.gtb_spec (Z.of_nat (length sh)) size) as [Hgt|Hle].
    + intros Hr Hle. destruct fuel' as [|fuel']; [lia|]. simpl.
      destruct (Z.gtb_spec (Z.of_nat (length sh)) size); [|lia].
      apply IH; [done|lia].
    + intros [= <-] _. destruct fuel'; simpl;
        by destruct (Z.gtb_spec (Z.of_nat (length sh)) size); [lia|].
Qed.

(** With a negative bound the loop never stops: the test still holds on
    the empty history, where [shift] changes nothing. *)
Lemma evictLoop_diverges fuel size sh ah :
  size < 0 → DevTools.evictLoop fuel size sh ah = None.
Proof.
  intros Hsize. revert sh ah. induction fuel as [|fuel IH]; intros sh ah; simpl;
    destruct (Z.gtb_spec (Z.of_nat (length sh)) size); try lia; [done|apply IH].
Qed.

Lemma new_inv development options : history_inv (DevTools.new development options).
Proof. split; simpl; [done|lia]. Qed.

(** What [record] does to the histories of an enabled recorder that
    satisfies the invariant. *)
Lemma record_histories action state d :
  DevTools.enabled d = true → history_inv d →
  let k := Z.to_nat (Z.of_nat (length (DevTools.stateHistory d)) + 1
                     - DevTools.maxHistorySize d) in
  DevTools.stateHistory (DevTools.record action state d).1
    = drop k (DevTools.stateHistory d ++ [state]) ∧
  DevTools.actionHistory (DevTools.record action state d).1
    = drop k (DevTools.actionHistory d ++ [action]) ∧
  DevTools.maxHistorySize (DevTools.record action state d).1
    = DevTools.maxHistorySize d ∧
  (k ≤ 1)%nat.
Proof.
  intros Hen [Hlen Hmax] k. unfold DevTools.record. rewrite Hen. simpl.
  rewrite length_app. simpl.
  destruct (Z.gtb_spec (Z.of_nat (length (DevTools.stateHistory d) + 1))
              (DevTools.maxHistorySize d)) as [Hgt|Hle].
  - assert (k = 1%nat) as -> by (unfold k; lia). unfold shift. auto.
  - assert (k = 0%nat) as -> by (unfold k; lia). rewrite !drop_0. auto.
Qed.

Lemma record_inv action state d :
  history_inv d → history_inv (DevTools.record action state d).1.
Proof.
  intros Hinv. destruct (DevTools.enabled d) eqn:Hen.
  - destruct (record_histories action state d Hen Hinv) as (Hs & Ha & Hm & Hk).
    destruct Hinv as [Hlen Hmax]. split.
    + rewrite Hs, Ha, !length_drop, !length_app. simpl. lia.
    + rewrite Hs, Hm, length_drop, length_app. simpl. lia.
  - unfold DevTools.record. by rewrite Hen.
Qed.

(** What [setMaxHistorySize] does for a non-negative bound. *)
Lemma setMaxHistorySize_histories size d :
  0 ≤ size →
  let k := Z.to_nat (Z.of_nat (length (DevTools.stateHistory d)) - size) in
  ∃ d', DevTools.setMaxHistorySize size d = Some d' ∧
        DevTools.stateHistory d' = drop k (DevTools.stateHistory d) ∧
        DevTools.actionHistory d' = drop k (DevTools.actionHistory d) ∧
        DevTools.maxHistorySize d' = size ∧
        DevTools.enabled d' = DevTools.enabled d ∧
        DevTools.listeners d' = DevTools.listeners d.
Proof.
  intros Hsize k. unfold DevTools.setMaxHistorySize, DevTools.setMaxHistorySize_fuel.
  rewrite evictLoop_spec; [|done|lia]. simpl. eauto 10.
Qed.

Lemma setMaxHistorySize_inv size d d' :
  0 ≤ size → history_inv d → DevTools.setMaxHistorySize size d = Some d' →
  history_inv d'.
Proof.
  intros Hsize [Hlen Hmax] Hset.
  destruct (setMaxHistorySize_histories size d Hsize) as (d'' & Hset' & Hs & Ha & Hm & _).
  rewrite Hset in Hset'. injection Hset' as <-. split.
  - rewrite Hs, Ha, !length_drop. lia.
  - rewrite Hs, Hm, length_drop. lia.
Qed.

Lemma step_inv op d :
  DevTools.op_ok op → history_inv d →
  ∃ d' ns, DevTools.step op d = Some (d', ns) ∧ history_inv d'.
Proof.
  intros Hok Hinv. destruct op as [action state|l|l| |size|b]; simpl.
  - destruct (DevTools.record action state d) as [d' ns] eqn:Hrec.
    exists d', ns. split; [done|].
    change d' with (d', ns).1. rewrite <- Hrec. by apply record_inv.
  - eexists _, _. split; [done|]. unfold DevTools.subscribe.
    by destruct (DevTools.enabled d).
  - eexists _, _. split; [done|]. done.
  - eexists _, _. split; [done|]. destruct Hinv as [_ Hmax]. split; simpl; [done|lia].
  - destruct (setMaxHistorySize_histories size d Hok) as (d' & Hset & _).
    rewrite Hset. simpl. eexists _, _. split; [done|].
    by eapply setMaxHistorySize_inv.
  - eexists _, _. split; [done|]. done.
Qed.

Lemma run_inv ops d :
  Forall DevTools.op_ok ops → history_inv d →
  ∃ d' ns, DevTools.run ops d = Some (d', ns) ∧ history_inv d'.
Proof.
  intros Hops. revert d. induction Hops as [|op ops Hop _ IH]; intros d Hinv; simpl.
  - eauto.
  - destruct (step_inv op d Hop Hinv) as (d1 & n1 & -> & Hinv1). simpl.
    destruct (IH d1 Hinv1) as (d2 & n2 & -> & Hinv2). simpl. eauto.
Qed.

(** C2.  After any sequence of recorder operations whose bounds are
    non-negative, started on a fresh recorder: every operation has
    returned, the two histories have the same length, and that length is
    at most [maxHistorySize].  From there, [record] on the enabled
    recorder and [setMaxHistorySize] evict first-in first-out and in
    lock-step: both histories lose the same number [k] of their oldest
    entries, [k] being the excess over the bound. *)
Theorem history_bounded_fifo_lockstep
    (development : bool) (options : DevTools.Options) (ops : list DevTools.Op) :
  Forall DevTools.op_ok ops →
  ∃ d ns,
    DevTools.run ops (DevTools.new development options) = Some (d, ns) ∧
    length (DevTools.stateHistory d) = length (DevTools.actionHistory d) ∧
    Z.of_nat (length (DevTools.stateHistory d)) ≤ DevTools.maxHistorySize d ∧
    (∀ action state,
       DevTools.enabled d = true →
       let k := Z.to_nat (Z.of_nat (length (DevTools.stateHistory d)) + 1
                          - DevTools.maxHistorySize d) in
       let d' := (DevTools.record action state d).1 in
       DevTools.stateHistory d' = drop k (DevTools.stateHistory d ++ [state]) ∧
       DevTools.actionHistory d' = drop k (DevTools.actionHistory d ++ [action]) ∧
       (k ≤ 1)%nat) ∧
    (∀ size,
       0 ≤ size →
       let k := Z.to_nat (Z.of_nat (length (DevTools.stateHistory d)) - size) in
       ∃ d', DevTools.setMaxHistorySize size d = Some d' ∧
             DevTools.maxHistorySize d' = size ∧
             DevTools.stateHistory d' = drop k (DevTools.stateHistory d) ∧
             DevTools.actionHistory d' = drop k (DevTools.actionHistory d)).
Proof.
  intros Hops.
  destruct (run_inv ops _ Hops (new_inv development options))
    as (d & ns & Hrun & Hinv).
  exists d, ns. split; [done|]. split; [apply Hinv|]. split; [apply Hinv|]. split.
  - intros action state Hen k d'.
    destruct (record_histories action state d Hen Hinv) as (Hs & Ha & _ & Hk).
    done.
  - intros size Hsize k.
    destruct (setMaxHistorySize_histories size d Hsize) as (d' & Hset & Hs & Ha & Hm & _).
    exists d'. done.
Qed.

Lemma array_get_lookup {A : Type} (arr : list A) (i : nat) :
  array_get arr (Z.of_nat i) = from_option Found Undefined (arr !! i).
Proof.
  unfold array_get. destruct (Z.ltb_spec (Z.of_nat i) 0); [lia|].
  rewrite Nat2Z.id. by destruct (arr !! i).
Qed.

(** Reading position [length - 1 - index], with the range check of the
    two getters. *)
Lemma getAt_spec {A : Type} (h : list A) (index : Z) :
  (if (index <? 0) || (index >=? Z.of_nat (length h)) then Null
   else array_get h (Z.of_nat (length h) - 1 - index))
  = if decide (0 ≤ index < Z.of_nat (length h))
    then from_option Found Undefined (h !! (length h - 1 - Z.to_nat index)%nat)
    else Null.
Proof.
  destruct (Z.ltb_spec index 0), (Z.geb_spec index (Z.of_nat (length h)));
    simpl; case_decide; try lia; try done.
  replace (Z.of_nat (length h) - 1 - index)
    with (Z.of_nat (length h - 1 - Z.to_nat index)) by lia.
  apply array_get_lookup.
Qed.

Lemma getAt_0_last {A : Type} (h : list A) (x : A) :
  last h = Some x →
  (if (0 <? 0) || (0 >=? Z.of_nat (length h)) then Null
   else array_get h (Z.of_nat (length h) - 1 - 0)) = Found x.
Proof.
  intros Hx. rewrite last_lookup in Hx.
  assert (length h ≠ 0%nat) by (intros E; destruct h; by simplify_eq/=).
  rewrite getAt_spec, decide_True by lia.
  replace (length h - 1 - Z.to_nat 0)%nat with (pred (length h)) by lia.
  by rewrite Hx.
Qed.

(** C8.  [getStateAt(i)] and [getActionAt(i)] return the entry at position
    [length - 1 - i] of their history when [0 <= i < length], so that
    index 0 is the entry recorded last, and return [null], without
    raising, when [i < 0] or [i >= length]. *)
Theorem getAt_counts_from_most_recent (d : DevTools.t) (i : Z) :
  let sh := DevTools.stateHistory d in
  let ah := DevTools.actionHistory d in
  (0 ≤ i < Z.of_nat (length sh) →
     ∃ s, sh !! (length sh - 1 - Z.to_nat i)%nat = Some s ∧
          DevTools.getStateAt i d = Found s) ∧
  (i < 0 ∨ Z.of_nat (length sh) ≤ i → DevTools.getStateAt i d = Null) ∧
  (0 ≤ i < Z.of_nat (length ah) →
     ∃ a, ah !! (length ah - 1 - Z.to_nat i)%nat = Some a ∧
          DevTools.getActionAt i d = Found a) ∧
  (i < 0 ∨ Z.of_nat (length ah) ≤ i → DevTools.getActionAt i d = Null) ∧
  (∀ s, last sh = Some s → DevTools.getStateAt 0 d = Found s) ∧
  (∀ a, last ah = Some a → DevTools.getActionAt 0 d = Found a).
Proof.
  intros sh ah. repeat split.
  - intros Hi. unfold DevTools.getStateAt. fold sh.
    rewrite getAt_spec, decide_True by done.
    destruct (lookup_lt_is_Some_2 sh (length sh - 1 - Z.to_nat i)%nat) as [s Hs];
      [lia|]. exists s. by rewrite Hs.
  - intros Hi. unfold DevTools.getStateAt. fold sh.
    by rewrite getAt_spec, decide_False by lia.
  - intros Hi. unfold DevTools.getActionAt. fold ah.
    rewrite getAt_spec, decide_True by done.
    destruct (lookup_lt_is_Some_2 ah (length ah - 1 - Z.to_nat i)%nat) as [a Ha];
      [lia|]. exists a. by rewrite Ha.
  - intros Hi. unfold DevTools.getActionAt. fold ah.
    by rewrite getAt_spec, decide_False by lia.
  - intros s. apply getAt_0_last.
  - intros a. apply getAt_0_last.
Qed.

(** A callback that is not in the listener set is not called, for as long
    as it is not subscribed. *)
Lemma run_not_notified listener ops d d' ns :
  listener ∉ DevTools.listeners d →
  Forall (λ op, op ≠ DevTools.OpSubscribe listener) ops →
  DevTools.run ops d = Some (d', ns) →
  (listener ∉ ns.*1) ∧ (listener ∉ DevTools.listeners d').
Proof.
  intros Hnotin Hops. revert d d' ns Hnotin.
  induction Hops as [|op ops Hop _ IH]; intros d d' ns Hnotin Hrun; simpl in Hrun.
  - simplify_eq. split; [apply not_elem_of_nil|done].
  - destruct (DevTools.step op d) as [[d1 n1]|] eqn:Hstep; simpl in Hrun; [|done].
    destruct (DevTools.run ops d1) as [[d2 n2]|] eqn:Hrun'; simplify_eq/=.
    assert ((listener ∉ n1.*1) ∧ (listener ∉ DevTools.listeners d1)) as [Hn1 Hd1].
    { destruct op as [action state|l|l| |size|b]; simplify_eq/=.
      - unfold DevTools.record in Hstep.
        destruct (DevTools.enabled d); simplify_eq/=.
        + split; [|done]. unfold DevTools.notifyListeners.
          by rewrite <- list_fmap_compose, list_fmap_id.
        + split; [apply not_elem_of_nil|done].
      - split; [apply not_elem_of_nil|]. unfold DevTools.subscribe.
        destruct (DevTools.enabled d); simpl; [|done].
        unfold set_add. case_decide; [done|].
        rewrite elem_of_app, list_elem_of_singleton. intros [?| ->]; [done|].
        by apply Hop.
      - split; [apply not_elem_of_nil|]. simpl. unfold set_delete.
        rewrite list_elem_of_filter. tauto.
      - split; [apply not_elem_of_nil|done].
      - destruct (DevTools.setMaxHistorySize size d) as [d''|] eqn:Hset;
          simplify_eq/=.
        split; [apply not_elem_of_nil|].
        unfold DevTools.setMaxHistorySize, DevTools.setMaxHistorySize_fuel in Hset.
        destruct (DevTools.evictLoop _ _ _ _) as [[sh ah]|]; by simplify_eq/=.
      - split; [apply not_elem_of_nil|done]. }
    destruct (IH d1 _ _ Hd1 Hrun') as [Hn2 Hd2]. split; [|done].
    rewrite fmap_app, elem_of_app. tauto.
Qed.

(** C9.  On a disabled recorder [record] changes nothing and calls no
    listener; [subscribe] changes nothing either and returns a closure
    that does nothing, so that the callback, unless it is subscribed
    again, is called by no later operation.  Disabling leaves both
    histories, and what the four getters return, as they were. *)
Theorem disabled_recorder_is_inert (d : DevTools.t) :
  DevTools.enabled d = false →
  (∀ action state, DevTools.record action state d = (d, [])) ∧
  (∀ listener,
     (DevTools.subscribe listener d).1 = d ∧
     (∀ d', (DevTools.subscribe listener d).2 d' = d') ∧
     (∀ ops d' ns,
        listener ∉ DevTools.listeners d →
        Forall (λ op, op ≠ DevTools.OpSubscribe listener) ops →
        DevTools.run ops (DevTools.subscribe listener d).1 = Some (d', ns) →
        listener ∉ (ns.*1))) ∧
  (∀ d0,
     DevTools.getStateHistory (DevTools.setEnabled false d0)
       = DevTools.getStateHistory d0 ∧
     DevTools.getActionHistory (DevTools.setEnabled false d0)
       = DevTools.getActionHistory d0 ∧
     (∀ i, DevTools.getStateAt i (DevTools.setEnabled false d0)
           = DevTools.getStateAt i d0) ∧
     (∀ i, DevTools.getActionAt i (DevTools.setEnabled false d0)
           = DevTools.getActionAt i d0)).
Proof.
  intros Hdis. split; [|split].
  - intros action state. unfold DevTools.record. by rewrite Hdis.
  - intros listener. unfold DevTools.subscribe. rewrite Hdis. simpl.
    split; [done|]. split; [done|].
    intros ops d' ns Hnotin Hops Hrun.
    by destruct (run_not_notified listener ops d d' ns Hnotin Hops Hrun).
  - done.
Qed.

End recorder.

(* ===================================================================== *)
(** * Properties of the store *)
(* ===================================================================== *)

Section store.

Implicit Types (w : World) (s : State) (action : ActionRef).

(** The code's spread is the specification's shallow merge. *)
Lemma spread_shallowMerge s partial : spread s partial = shallowMerge s partial.
Proof.
  apply map_eq. intros k. unfold spread, shallowMerge.
  rewrite lookup_union, lookup_merge.
  by destruct (partial !! k), (s !! k).
Qed.

Lemma shallowMerge_lookup s partial k :
  shallowMerge s partial !! k
  = match partial !! k with Some v => Some v | None => s !! k end.
Proof.
  unfold shallowMerge. rewrite lookup_merge.
  by destruct (partial !! k), (s !! k).
Qed.

(** What the spread copies of the value that [setState] computes. *)
Lemma own_properties_payload updater s :
  own_properties (payload_of updater s) = partial_of updater s.
Proof. by destruct updater. Qed.

(** The listeners are called in the order of the set, each with the state
    and the action object as they are; nothing else changes. *)
Lemma forEach_call_listener action ls w :
  forEach (call_listener action) ls w =
    (Normal (),
     {| state := state w; listeners := listeners w; devTools := devTools w;
        heap := heap w; clock := clock w; ticks := ticks w;
        trace := trace w
                 ++ ((λ l, EvListener l (state w) action (fields <$> heap w !! action))
                       <$> ls) |}).
Proof.
  revert w. induction ls as [|l ls IH]; intros w; simpl.
  - unfold mret, M_ret. rewrite app_nil_r. by destruct w.
  - unfold mbind, M_bind, call_listener. simpl.
    unfold mbind, M_bind, readState, readAction, emit. simpl.
    rewrite IH. simpl. by rewrite <- app_assoc.
Qed.

Lemma notify_eq action w :
  notify action w =
    (Normal (),
     {| state := state w; listeners := listeners w; devTools := devTools w;
        heap := heap w; clock := clock w; ticks := ticks w;
        trace := trace w
                 ++ ((λ l, EvListener l (state w) action (fields <$> heap w !! action))
                       <$> listeners w) |}).
Proof.
  unfold notify, mbind, M_bind, readListeners. apply forEach_call_listener.
Qed.

(** The world after [store.setState(updater)]: the [SET_STATE] action is a
    new object, at the next free address. *)
Lemma store_setState_eq updater w :
  let partial := partial_of updater (state w) in
  let s' := spread (state w) partial in
  let properties := {| type := "SET_STATE";
                       payload := Some (payload_of updater (state w));
                       timestamp := Some (clock w (ticks w)) |} in
  let action := length (heap w) in
  let r := DevTools.record action s' (devTools w) in
  store_setState updater w =
    (Normal (),
     {| state := s'; listeners := listeners w; devTools := r.1;
        heap := heap w ++ [{| fields := properties; frozen := false |}];
        clock := clock w; ticks := S (ticks w);
        trace := trace w ++ (EvDevTools <$> r.2)
                 ++ ((λ l, EvListener l s' action (Some properties)) <$> listeners w) |}).
Proof.
  intros partial s' properties action r. unfold store_setState.
  unfold mbind at 1 2 3 4 5 6 7. unfold M_bind at 1 2 3 4 5 6 7.
  unfold readState, writeState, dateNow, newAction, writeHeap, devTools_record, emit.
  simpl. fold (payload_of updater (state w)).
  rewrite own_properties_payload. fold partial s' properties action r.
  destruct r as [d ns]. simpl. rewrite notify_eq. simpl.
  rewrite list_lookup_middle by done. simpl. by rewrite <- app_assoc.
Qed.

(** The raw [store.dispatch(action)]: it throws when [action] is frozen or
    not an object, and otherwise assigns the time to the object, hands the
    object to the recorder and calls the listeners with it. *)
Lemma store_dispatch_eq action w :
  store_dispatch action w =
    match heap w !! action with
    | Some object =>
        if frozen object then (Throw TypeError, dispatch_entered action w)
        else (Normal (), dispatch_done action object w)
    | None => (Throw TypeError, dispatch_entered action w)
    end.
Proof.
  unfold store_dispatch.
  unfold mbind at 1 2 3 4 5. unfold M_bind at 1 2 3 4 5.
  unfold emit at 1. unfold dateNow, assignTimestamp. simpl.
  destruct (heap w !! action) as [object|] eqn:Hobj; [|done].
  destruct (frozen object) eqn:Hfrozen; [done|].
  unfold writeHeap, readState, devTools_record, emit. simpl.
  destruct (DevTools.record action (state w) (devTools w)) as [d ns] eqn:Hrec.
  simpl. rewrite notify_eq. simpl.
  rewrite list_lookup_insert_eq by (by eapply lookup_lt_Some). simpl.
  unfold dispatch_done. rewrite Hrec, Hfrozen. simpl. by rewrite <- !app_assoc.
Qed.

Lemma store_dispatch_writable action object w :
  heap w !! action = Some object → frozen object = false →
  store_dispatch action w = (Normal (), dispatch_done action object w).
Proof. intros Hobj Hfrozen. by rewrite store_dispatch_eq, Hobj, Hfrozen. Qed.

(** The raw dispatch leaves the state alone, however it ends. *)
Lemma store_dispatch_state action w : state (store_dispatch action w).2 = state w.
Proof.
  rewrite store_dispatch_eq. destruct (heap w !! action) as [object|]; [|done].
  by destruct (frozen object).
Qed.

(** With no middleware [createStore] returns its object literal. *)
Lemma createStore_no_middleware options :
  middleware options = None ∨ middleware options = Some [] →
  createStore options = baseStore.
Proof. unfold createStore. by intros [-> | ->]. Qed.

(** [setState] is never wrapped. *)
Lemma createStore_setState options :
  setState (createStore options) = store_setState.
Proof. unfold createStore. by destruct (middleware options) as [[|m ms]|]. Qed.

Lemma createStore_getState options :
  getState (createStore options) = store_getState.
Proof. unfold createStore. by destruct (middleware options) as [[|m ms]|]. Qed.

Lemma createStore_subscribe options :
  subscribe (createStore options) = store_subscribe.
Proof. unfold createStore. by destruct (middleware options) as [[|m ms]|]. Qed.

Lemma setState_all_eq updaters w :
  ∃ w', setState_all baseStore updaters w = (Normal (), w') ∧
        state w' = merge_fold (state w) updaters.
Proof.
  revert w. induction updaters as [|updater rest IH]; intros w; simpl.
  - by exists w.
  - unfold mbind, M_bind. rewrite store_setState_eq.
    match goal with |- context [setState_all _ _ ?w1] =>
      destruct (IH w1) as (w' & -> & Hst) end.
    exists w'. split; [done|]. rewrite Hst. simpl.
    by rewrite spread_shallowMerge.
Qed.

(** C3.  After any finite sequence of [setState] calls, each given a
    mapping or a function of the state, every call has returned and
    [getState()] is the left-to-right fold of shallow merges of the
    initial state with the partial updates.  A key of an update takes the
    update's value as it is, nested object or not; the other keys keep
    theirs. *)
Theorem setState_is_shallow_merge_fold
    (options : StoreOptions) (updaters : list Updater) (w : World) :
  let store := createStore options in
  (∃ w', setState_all store updaters w = (Normal (), w') ∧
         (getState store w').1 = Normal (merge_fold (state w) updaters)) ∧
  (∀ updater w0 k,
     let partial := partial_of updater (state w0) in
     (getState store (setState store updater w0).2).1
     = Normal (shallowMerge (state w0) partial) ∧
     shallowMerge (state w0) partial !! k
     = match partial !! k with
       | Some v => Some v
       | None => state w0 !! k
       end).
Proof.
  intros store. split.
  - assert (setState_all store updaters = setState_all baseStore updaters) as ->.
    { induction updaters as [|u us IH]; simpl; [done|].
      rewrite IH. unfold store. by rewrite createStore_setState. }
    destruct (setState_all_eq updaters w) as (w' & Hrun & Hst).
    exists w'. split; [done|].
    unfold store. rewrite createStore_getState. simpl. by rewrite Hst.
  - intros updater w0 k partial. unfold store.
    rewrite createStore_setState, createStore_getState, store_setState_eq.
    simpl. rewrite spread_shallowMerge. split; [done|].
    apply shallowMerge_lookup.
Qed.

(** The update of a nested object replaces it: the [age] of the user is
    gone after [setState({ user: { name: "b" } })]. *)
Example setState_replaces_nested_object :
  let user1 := VObj {[ "name" := VStr "a"; "age" := VNum 1 ]} in
  let user2 := VObj {[ "name" := VStr "b" ]} in
  let w := {| state := {[ "count" := VNum 0; "user" := user1 ]};
              listeners := []; devTools := DevTools.new false no_options;
              heap := []; clock := λ _, 0; ticks := 0; trace := [] |} in
  state (setState (createStore plain_options) (UObj {[ "user" := user2 ]}) w).2
  = {[ "count" := VNum 0; "user" := user2 ]}.
Proof. repeat split; vm_compute; reflexivity. Qed.

(** Scenario 2: [setState(s => ({count: s.count + 1}))] twice from
    [{count: 0}]. *)
Example setState_increment_twice :
  let incr := UFun (λ s, match s !! "count" with
                         | Some (VNum n) => {[ "count" := VNum (n + 1) ]}
                         | _ => ∅
                         end) in
  state (setState_all (createStore plain_options) [incr; incr] plain_world).2
  = count_state 2.
Proof. repeat split; vm_compute; reflexivity. Qed.

(** C4.  On a store built without middleware [dispatch(action)] leaves the
    state as it was, however it ends: [getState()] gives the same value
    before and after.  It returns when the action is an object that is not
    frozen, and otherwise throws the [TypeError] of the assignment to
    [action.timestamp]; it ends in no other way.  Neither do [getState],
    [subscribe] and the unsubscribe closure change the state. *)
Theorem dispatch_without_middleware_keeps_state
    (options : StoreOptions) (action : ActionRef) (w : World) :
  middleware options = None ∨ middleware options = Some [] →
  let store := createStore options in
  (∀ object, heap w !! action = Some object → frozen object = false →
             (dispatch store action w).1 = Normal ()) ∧
  (∀ e, (dispatch store action w).1 = Throw e →
        e = TypeError ∧
        (heap w !! action = None ∨
         ∃ object, heap w !! action = Some object ∧ frozen object = true)) ∧
  (getState store (dispatch store action w).2).1 = (getState store w).1 ∧
  state (dispatch store action w).2 = state w ∧
  state (getState store w).2 = state w ∧
  (∀ listener,
     state (subscribe store listener w).2 = state w ∧
     ∀ unsubscribe w0,
       (subscribe store listener w).1 = Normal unsubscribe →
       state (unsubscribe w0).2 = state w0).
Proof.
  intros Hmw store. unfold store. rewrite (createStore_no_middleware _ Hmw).
  simpl. split.
  { intros object Hobj Hfrozen. by rewrite (store_dispatch_writable _ _ _ Hobj Hfrozen). }
  split.
  { intros e. rewrite store_dispatch_eq.
    destruct (heap w !! action) as [object|] eqn:Hobj.
    - destruct (frozen object) eqn:Hfrozen; simpl; [|discriminate].
      intros [= <-]. split; [done|]. right. by exists object.
    - simpl. intros [= <-]. split; [done|]. by left. }
  unfold store_getState, readState. simpl. rewrite store_dispatch_state.
  repeat split.
  intros unsubscribe w0 [= <-]. done.
Qed.

Lemma events_since_app w w' evs :
  trace w' = trace w ++ evs → events_since w w' = evs.
Proof. unfold events_since. intros ->. by rewrite drop_app_length. Qed.

(** On an enabled recorder with a positive bound the entry just recorded
    is the newest of both histories. *)
Lemma record_newest action s d :
  DevTools.enabled d = true → history_inv d → 1 ≤ DevTools.maxHistorySize d →
  last (DevTools.actionHistory (DevTools.record action s d).1) = Some action ∧
  last (DevTools.stateHistory (DevTools.record action s d).1) = Some s.
Proof.
  intros Hen [Hlen Hmax] Hpos. unfold DevTools.record. rewrite Hen. simpl.
  rewrite length_app. simpl.
  destruct (Z.gtb_spec (Z.of_nat (length (DevTools.stateHistory d) + 1))
              (DevTools.maxHistorySize d)) as [Hgt|Hle].
  - destruct (DevTools.stateHistory d) as [|s0 sh],
      (DevTools.actionHistory d) as [|a0 ah]; simpl in *; try lia.
    unfold shift. simpl. rewrite !drop_0. split; apply last_snoc.
  - split; apply last_snoc.
Qed.




End store.

(** ** Concrete runs of the store *)


(** An action object that is dispatched twice is in the history twice: the
    second dispatch changes the timestamp that the first entry shows. *)
Example redispatch_rewrites_the_first_entry :
  let store := createStore plain_options in
  let w0 := {| state := count_state 0; listeners := [];
               devTools := DevTools.new true no_options;
               heap := sample_objects;
               clock := λ n, 1000 * (1 + Z.of_nat n); ticks := 0; trace := [] |} in
  let w1 := (dispatch store (numbered_action 1) w0).2 in
  let w2 := (dispatch store (numbered_action 1) w1).2 in
  DevTools.getActionAt 0 (devTools w1) = Found (numbered_action 1) ∧
  timestamp <$> (fields <$> heap w1 !! numbered_action 1) = Some (Some 1000) ∧
  DevTools.getActionHistory (devTools w2) = [numbered_action 1; numbered_action 1] ∧
  timestamp <$> (fields <$> heap w2 !! numbered_action 1) = Some (Some 2000).
Proof. repeat split; vm_compute; reflexivity. Qed.

(** A frozen action makes [dispatch] throw, after the clock was read and
    before anything is recorded or any listener is called. *)
Example dispatch_frozen_action_throws :
  let r := dispatch (createStore plain_options) frozen_action plain_world in
  r.1 = Throw TypeError ∧
  events_since plain_world r.2 = [EvDispatch frozen_action] ∧
  devTools r.2 = devTools plain_world ∧
  heap r.2 = heap plain_world.
Proof. repeat split; vm_compute; reflexivity. Qed.


(* ===================================================================== *)
(** * Properties of the middleware pipeline *)
(* ===================================================================== *)

(** ** The right-to-left fold nests from the left *)

Lemma reduceRight_cons {A B : Type} (f : B → A → B) (init : B) (x : A) (l : list A) :
  reduceRight f init (x :: l) = f (reduceRight f init l) x.
Proof. unfold reduceRight. simpl. by rewrite fold_left_app. Qed.

Lemma reduceRight_wrap_nest store inner i ms :
  reduceRight (wrap store) inner (zip (seq i (length ms)) ms) = nest store inner i ms.
Proof.
  revert i. induction ms as [|m ms IH]; intros i; simpl; [done|].
  by rewrite reduceRight_cons, IH.
Qed.

Lemma chain_nest store inner ms : chain store inner ms = nest store inner 0 ms.
Proof. apply reduceRight_wrap_nest. Qed.

Lemma createStore_dispatch options ms :
  middleware options = Some ms →
  dispatch (createStore options) = nest baseStore store_dispatch 0 ms.
Proof.
  intros Hms. unfold createStore. rewrite Hms. destruct ms as [|m ms]; [done|].
  unfold applyMiddleware. cbn [dispatch]. apply reduceRight_wrap_nest.
Qed.

Lemma wrap_handle store next i m action w :
  wrap store next (i, m) action w
  = handle store next m action (emit [EvMiddleware i action] w).2.
Proof. done. Qed.

(** The nesting of the wrappers is the chain of the specification. *)
Lemma nest_pipeline store inner i ms :
  nest store inner i ms = pipeline store inner i ms.
Proof.
  revert i. induction ms as [|m ms IH]; intros i; simpl; [done|].
  by rewrite IH.
Qed.

(** ** Bodies and the calls they make *)

Lemma Uses_mono al {R : Type} (Q Q' : R → Prop) (c : Code R) :
  (∀ r, Q r → Q' r) → Uses al Q c → Uses al Q' c.
Proof.
  intros HQ.
  induction c as [r|e|a k IH|k IH|u k IH|l k IH|a k IH|k IH|o k IH|a k IH|o k IH];
    simpl; intuition auto.
Qed.

Lemma Uses_all {R : Type} (Q : R → Prop) (c : Code R) :
  (∀ r, Q r) → Uses allow_all Q c.
Proof.
  intros HQ.
  induction c as [r|e|a k IH|k IH|u k IH|l k IH|a k IH|k IH|o k IH|a k IH|o k IH];
    simpl; intuition auto.
Qed.

Lemma uses_all m : uses allow_all m.
Proof. apply Uses_all. intros handler action. by apply Uses_all. Qed.

Lemma Uses_both al1 al2 {R : Type} (Q1 Q2 : R → Prop) (c : Code R) :
  Uses al1 Q1 c → Uses al2 Q2 c → Uses (allow_both al1 al2) (λ r, Q1 r ∧ Q2 r) c.
Proof.
  induction c as [r|e|a k IH|k IH|u k IH|l k IH|a k IH|k IH|o k IH|a k IH|o k IH];
    simpl.
  - done.
  - done.
  - intros [-> ?] [-> ?]. auto.
  - intros H1 H2 s. auto.
  - intros [-> ?] [-> ?]. auto.
  - auto.
  - intros [-> ?] [-> ?]. auto.
  - intros H1 H2 t. auto.
  - intros H1 H2 action. auto.
  - intros H1 H2 seen. auto.
  - auto.
Qed.

Lemma uses_both al1 al2 m : uses al1 m → uses al2 m → uses (allow_both al1 al2) m.
Proof.
  intros H1 H2. unfold uses.
  eapply Uses_mono; [|by apply Uses_both].
  intros handler [Hh1 Hh2] action.
  eapply Uses_mono; [|by apply Uses_both]. done.
Qed.

(** What a body returns satisfies its postcondition. *)
Lemma exec_result al {R : Type} (Q : R → Prop) store next (c : Code R) w x w' :
  Uses al Q c → exec store next c w = (Normal x, w') → Q x.
Proof.
  revert w.
  induction c as [r|e|a k IH|k IH|u k IH|l k IH|a k IH|k IH|o k IH|a k IH|o k IH];
    intros w; simpl; unfold mbind, M_bind.
  - by intros ? [= <- _].
  - done.
  - intros [_ ?]. destruct (next a w) as [[[]|?] w1]; [by eapply IH|done].
  - intros ?. destruct (getState store w) as [[s|?] w1]; [by eapply IH|done].
  - intros [_ ?]. destruct (setState store u w) as [[[]|?] w1]; [by eapply IH|done].
  - intros ?. destruct (subscribe store l w) as [[?|?] w1]; [by eapply IH|done].
  - intros [_ ?]. destruct (dispatch store a w) as [[[]|?] w1]; [by eapply IH|done].
  - intros ?. destruct (dateNow w) as [[t|?] w1]; [by eapply IH|done].
  - intros ?. destruct (newAction o w) as [[a|?] w1]; [by eapply IH|done].
  - intros ?. destruct (readAction a w) as [[seen|?] w1]; [by eapply IH|done].
  - by apply IH.
Qed.

(** The handler that a middleware returns inherits its restrictions. *)
Lemma handler_uses al store next m w handler w' :
  uses al m → exec store next m w = (Normal handler, w') →
  ∀ action, Uses al (λ _, True) (handler action).
Proof. intros Hm Hexec. exact (exec_result al _ store next m w handler w' Hm Hexec). Qed.

(** A body runs the same with two [next] that agree. *)
Lemma exec_ext {R : Type} store next next' (c : Code R) :
  (∀ a w, next a w = next' a w) → ∀ w, exec store next c w = exec store next' c w.
Proof.
  intros Hnext.
  induction c as [r|e|a k IH|k IH|u k IH|l k IH|a k IH|k IH|o k IH|a k IH|o k IH];
    intros w; simpl; unfold mbind, M_bind; try done.
  - rewrite Hnext. by destruct (next' a w) as [[[]|?] w1].
  - by destruct (getState store w) as [[s|?] w1].
  - by destruct (setState store u w) as [[[]|?] w1].
  - by destruct (subscribe store l w) as [[?|?] w1].
  - by destruct (dispatch store a w) as [[[]|?] w1].
  - by destruct (dateNow w) as [[t|?] w1].
  - by destruct (newAction o w) as [[a|?] w1].
  - by destruct (readAction a w) as [[seen|?] w1].
Qed.

(** A body that never calls [next] runs the same with any [next]. *)
Lemma exec_no_next al {R : Type} (Q : R → Prop) store next next' (c : Code R) :
  allow_next al = false → Uses al Q c →
  ∀ w, exec store next c w = exec store next' c w.
Proof.
  intros Hal.
  induction c as [r|e|a k IH|k IH|u k IH|l k IH|a k IH|k IH|o k IH|a k IH|o k IH];
    simpl; unfold mbind, M_bind; try done.
  - intros [? _]. congruence.
  - intros ? w. destruct (getState store w) as [[s|?] w1]; [by apply IH|done].
  - intros [_ ?] w. destruct (setState store u w) as [[[]|?] w1]; [by apply IH|done].
  - intros ? w. destruct (subscribe store l w) as [[?|?] w1]; [by apply IH|done].
  - intros [_ ?] w. destruct (dispatch store a w) as [[[]|?] w1]; [by apply IH|done].
  - intros ? w. destruct (dateNow w) as [[t|?] w1]; [by apply IH|done].
  - intros ? w. destruct (newAction o w) as [[a|?] w1]; [by apply IH|done].
  - intros ? w. destruct (readAction a w) as [[seen|?] w1]; [by apply IH|done].
Qed.

Lemma handle_ext store next next' m action :
  (∀ a w, next a w = next' a w) →
  ∀ w, handle store next m action w = handle store next' m action w.
Proof.
  intros Hnext w. unfold handle, mbind, M_bind.
  rewrite (exec_ext store next next' m Hnext).
  destruct (exec store next' m w) as [[h|?] w1]; [|done].
  by apply exec_ext.
Qed.

Lemma handle_no_next al store next next' m action :
  allow_next al = false → uses al m →
  ∀ w, handle store next m action w = handle store next' m action w.
Proof.
  intros Hal Hm w. unfold handle, mbind, M_bind.
  rewrite (exec_no_next al _ store next next' m Hal Hm).
  destruct (exec store next' m w) as [[h|?] w1] eqn:Hexec; [|done].
  eapply exec_no_next; [done|]. by eapply handler_uses.
Qed.

(** Everything after a middleware that never calls [next] is dead. *)
Lemma nest_halting al store inner inner' i pre h post post' :
  allow_next al = false → uses al h →
  ∀ action w,
    nest store inner i (pre ++ h :: post) action w
    = nest store inner' i (pre ++ h :: post') action w.
Proof.
  intros Hal Hh. revert i. induction pre as [|m pre IH]; intros i action w; simpl.
  - rewrite !wrap_handle. by eapply handle_no_next.
  - rewrite !wrap_handle. apply handle_ext. intros a w'. apply IH.
Qed.

(** Two runs that agree step by step. *)
Lemma bind_ext {A B : Type} (m m' : M A) (f f' : A → M B) :
  (∀ w, m w = m' w) → (∀ x w, f x w = f' x w) →
  ∀ w, (m ≫= f) w = (m' ≫= f') w.
Proof.
  intros Hm Hf w. unfold mbind, M_bind. rewrite Hm.
  by destruct (m' w) as [[x|e] w1].
Qed.

(** Running one body after another. *)
Lemma exec_then {R : Type} store next (c : Code unit) (k : Code R) w :
  exec store next (then_ c k) w = (exec store next c;; exec store next k) w.
Proof.
  revert w.
  induction c as [[]|e|a c IH|f IH|u c IH|l c IH|a c IH|f IH|o f IH|a f IH|o c IH];
    intros w; simpl; unfold mbind, M_bind; try done.
  - destruct (next a w) as [[[]|?] w1]; [apply IH|done].
  - destruct (getState store w) as [[s|?] w1]; [apply IH|done].
  - destruct (setState store u w) as [[[]|?] w1]; [apply IH|done].
  - destruct (subscribe store l w) as [[?|?] w1]; [apply IH|done].
  - destruct (dispatch store a w) as [[[]|?] w1]; [apply IH|done].
  - apply IH.
  - apply IH.
  - apply IH.
Qed.

(** The wrapper of an [around] middleware: its mark, what the handler does
    before, [next], what the handler does after. *)
Lemma wrap_around next i before after action w :
  calls_no_next (before action) → calls_no_next (after action) →
  wrap baseStore next (i, around before after) action w
  = (emit [EvMiddleware i action];;
     run_body (before action);;
     next action;;
     run_body (after action)) w.
Proof.
  intros Hb Ha. unfold wrap, around. simpl.
  apply bind_ext; [done|]. intros [] w1.
  unfold mbind at 1. unfold M_bind at 1. unfold mret at 1. unfold M_ret at 1.
  rewrite exec_then.
  apply bind_ext.
  { intros w2. unfold run_body. eapply exec_no_next; [|exact Hb]; done. }
  intros [] w2. simpl.
  apply bind_ext; [done|]. intros [] w3.
  unfold run_body. eapply exec_no_next; [|exact Ha]; done.
Qed.

(** A chain of [around] middleware runs as the row of its handlers. *)
Lemma nest_onion i hs action w :
  Forall (λ h, ∀ a, calls_no_next (h.1 a) ∧ calls_no_next (h.2 a)) hs →
  nest baseStore store_dispatch i ((λ h, around h.1 h.2) <$> hs) action w
  = onion i hs action w.
Proof.
  intros Hhs. revert i action w.
  induction Hhs as [|h hs Hh _ IH]; intros i action w; [done|].
  change (wrap baseStore
            (nest baseStore store_dispatch (S i) ((λ h, around h.1 h.2) <$> hs))
            (i, around h.1 h.2) action w
          = onion i (h :: hs) action w).
  destruct (Hh action) as [Hb Ha]. rewrite wrap_around by done. simpl.
  apply bind_ext; [done|]. intros [] w1.
  apply bind_ext; [done|]. intros [] w2.
  apply bind_ext; [apply IH|done].
Qed.

(** ** Relations that every step of a run preserves *)

Section preserves.
Context (R : relation World) `{!PreOrder R}.

Lemma preserves_ret {A : Type} (x : A) : preserves R (mret x).
Proof. intros w. simpl. reflexivity. Qed.

Lemma preserves_throw {A : Type} (e : Value) : preserves R (throw (A:=A) e).
Proof. intros w. simpl. reflexivity. Qed.

Lemma preserves_readAction action : preserves R (readAction action).
Proof. intros w. simpl. reflexivity. Qed.

Lemma preserves_bind {A B : Type} (m : M A) (f : A → M B) :
  preserves R m → (∀ x, preserves R (f x)) → preserves R (m ≫= f).
Proof.
  intros Hm Hf w. unfold mbind, M_bind. specialize (Hm w).
  destruct (m w) as [[x|e] w1]; simpl in *; [|done].
  etrans; [done|]. apply Hf.
Qed.

Lemma preserves_exec al {A : Type} (Q : A → Prop) store next (c : Code A) :
  Uses al Q c →
  (allow_next al = true → ∀ a, preserves R (next a)) →
  (allow_setState al = true → ∀ u, preserves R (setState store u)) →
  (allow_dispatch al = true → ∀ a, preserves R (dispatch store a)) →
  preserves R (getState store) →
  (∀ l, preserves R (subscribe store l)) →
  preserves R dateNow →
  (∀ o, preserves R (newAction o)) →
  preserves R (exec store next c).
Proof.
  intros Hc Hnext Hset Hdisp Hget Hsub Hnow Hnew.
  induction c as [r|e|a k IH|k IH|u k IH|l k IH|a k IH|k IH|o k IH|a k IH|o k IH];
    simpl in *.
  - apply preserves_ret.
  - apply preserves_throw.
  - destruct Hc. apply preserves_bind; [by apply Hnext|]. intros _. by apply IH.
  - apply preserves_bind; [done|]. intros s. by apply IH.
  - destruct Hc. apply preserves_bind; [by apply Hset|]. intros _. by apply IH.
  - apply preserves_bind; [done|]. intros _. by apply IH.
  - destruct Hc. apply preserves_bind; [by apply Hdisp|]. intros _. by apply IH.
  - apply preserves_bind; [done|]. intros t. by apply IH.
  - apply preserves_bind; [done|]. intros action. by apply IH.
  - apply preserves_bind; [apply preserves_readAction|]. intros seen. by apply IH.
  - by apply IH.
Qed.

Lemma preserves_handle al store next m action :
  uses al m →
  (allow_next al = true → ∀ a, preserves R (next a)) →
  (allow_setState al = true → ∀ u, preserves R (setState store u)) →
  (allow_dispatch al = true → ∀ a, preserves R (dispatch store a)) →
  preserves R (getState store) →
  (∀ l, preserves R (subscribe store l)) →
  preserves R dateNow →
  (∀ o, preserves R (newAction o)) →
  preserves R (handle store next m action).
Proof.
  intros Hm Hnext Hset Hdisp Hget Hsub Hnow Hnew w. unfold handle, mbind, M_bind.
  pose proof (preserves_exec al _ store next m Hm Hnext Hset Hdisp Hget Hsub Hnow
                Hnew w) as H1.
  destruct (exec store next m w) as [[h|e] w1] eqn:Hexec; simpl in *; [|done].
  etrans; [done|].
  eapply (preserves_exec al); try done.
  by eapply handler_uses.
Qed.

End preserves.

(** ** Event lists *)

#[global] Instance Forall_closed (Q : Event → Prop) : Closed (Forall Q).
Proof. split; [by constructor|]. intros evs1 evs2 H1 H2. by apply Forall_app. Qed.

#[global] Instance ordered_from_closed i : Closed (ordered_from i).
Proof.
  split.
  - intros k j a Hk. by rewrite lookup_nil in Hk.
  - intros evs1 evs2 H1 H2 k j a Hk.
    apply lookup_app_Some in Hk as [Hk|[Hlen Hk]].
    + destruct (H1 k j a Hk) as [Hij Hpred]. split; [done|].
      intros Hlt. destruct (Hpred Hlt) as (k' & a' & Hk' & Hev).
      exists k', a'. split; [done|]. by apply lookup_app_l_Some.
    + destruct (H2 _ j a Hk) as [Hij Hpred]. split; [done|].
      intros Hlt. destruct (Hpred Hlt) as (k' & a' & Hk' & Hev).
      exists (length evs1 + k')%nat, a'. split; [lia|].
      rewrite lookup_app_r by lia.
      by replace (length evs1 + k' - length evs1)%nat with k' by lia.
Qed.

#[global] Instance indices_below_closed n : Closed (indices_below n).
Proof.
  split.
  - intros j a Hin. by apply elem_of_nil in Hin.
  - intros evs1 evs2 H1 H2 j a Hin. apply elem_of_app in Hin as [Hin|Hin]; eauto.
Qed.

#[global] Instance silent_closed : Closed silent.
Proof. apply Forall_closed. Qed.

Lemma silent_ordered_from i evs : silent evs → ordered_from i evs.
Proof.
  intros Hs k j a Hk. apply list_elem_of_lookup_2 in Hk.
  unfold silent in Hs. rewrite Forall_forall in Hs. by destruct (Hs _ Hk).
Qed.

Lemma silent_indices_below n evs : silent evs → indices_below n evs.
Proof.
  intros Hs j a Hin. unfold silent in Hs. rewrite Forall_forall in Hs. by destruct (Hs _ Hin).
Qed.

(** Entering wrapper [i] before events ordered from [i + 1]. *)
Lemma ordered_from_cons i a evs :
  ordered_from (S i) evs → ordered_from i (EvMiddleware i a :: evs).
Proof.
  intros Hord [|k] j a' Hk; simpl in Hk.
  - injection Hk as <- <-. split; [done|lia].
  - destruct (Hord k j a' Hk) as [Hij Hpred]. split; [lia|]. intros _.
    destruct (decide (j = S i)) as [->|Hne].
    + exists 0%nat, a. split; [lia|done].
    + destruct Hpred as (k' & a'' & Hk' & Hev); [lia|].
      exists (S k'), a''. split; [lia|done].
Qed.

Lemma indices_below_cons n i a evs :
  (i < n)%nat → indices_below n evs → indices_below n (EvMiddleware i a :: evs).
Proof.
  intros Hi Hevs j a' Hin. apply elem_of_cons in Hin as [[= -> ->]|Hin]; eauto.
Qed.

(** ** Worlds that grow *)

#[global] Instance grows_preorder P `{!Closed P} : PreOrder (grows P).
Proof.
  split.
  - intros w. exists []. split; [by rewrite app_nil_r|apply closed_nil].
  - intros w1 w2 w3 (evs1 & Ht1 & H1) (evs2 & Ht2 & H2).
    exists (evs1 ++ evs2). split; [by rewrite Ht2, Ht1, app_assoc|by apply closed_app].
Qed.

#[global] Instance grows_quietly_preorder P `{!Closed P} : PreOrder (grows_quietly P).
Proof.
  split.
  - intros w. split; [done|]. split; [done|]. split; reflexivity.
  - intros w1 w2 w3 (Hs1 & Hd1 & Hh1 & H1) (Hs2 & Hd2 & Hh2 & H2).
    split; [congruence|]. split; [congruence|]. split; by etrans.
Qed.

Lemma grows_mono (P P' : list Event → Prop) w w' :
  (∀ evs, P evs → P' evs) → grows P w w' → grows P' w w'.
Proof. intros HP (evs & Ht & H). exists evs. auto. Qed.

Lemma preserves_mono (P P' : list Event → Prop) {A : Type} (c : M A) :
  (∀ evs, P evs → P' evs) → preserves (grows P) c → preserves (grows P') c.
Proof. intros HP Hc w. eapply grows_mono; [done|apply Hc]. Qed.

(** ** The methods of the store object enter no wrapper *)

Lemma store_getState_silent : preserves (grows silent) store_getState.
Proof. intros w. simpl. reflexivity. Qed.

Lemma dateNow_silent : preserves (grows silent) dateNow.
Proof. intros w. exists []. split; [by rewrite app_nil_r|constructor]. Qed.

Lemma newAction_silent object : preserves (grows silent) (newAction object).
Proof. intros w. exists []. split; [by rewrite app_nil_r|constructor]. Qed.

Lemma store_subscribe_silent listener : preserves (grows silent) (store_subscribe listener).
Proof. intros w. exists []. split; [by rewrite app_nil_r|constructor]. Qed.

Lemma store_setState_silent updater : preserves (grows silent) (store_setState updater).
Proof.
  intros w. rewrite store_setState_eq. simpl. eexists. split; [done|].
  apply Forall_app. split; apply Forall_fmap, Forall_true; intros ? H; exact H.
Qed.

Lemma store_dispatch_silent action : preserves (grows silent) (store_dispatch action).
Proof.
  intros w. rewrite store_dispatch_eq.
  assert (grows silent w (dispatch_entered action w)) as Hentered.
  { eexists. split; [done|]. apply Forall_cons_2; [intros H; exact H|apply Forall_nil_2]. }
  destruct (heap w !! action) as [object|]; [|done].
  destruct (frozen object); [done|].
  simpl. eexists. split; [done|].
  apply Forall_cons. split; [intros H; exact H|].
  apply Forall_app. split; apply Forall_fmap, Forall_true; intros ? H; exact H.
Qed.

(** A wrapper adds its mark, then what its handler adds. *)
Lemma wrap_grows (P : list Event → Prop) store next i m action :
  preserves (grows P) (handle store next m action) →
  ∀ w, ∃ evs, trace (wrap store next (i, m) action w).2
              = trace w ++ EvMiddleware i action :: evs ∧ P evs.
Proof.
  intros Hh w. rewrite wrap_handle.
  destruct (Hh (emit [EvMiddleware i action] w).2) as (evs & Ht & HP).
  exists evs. split; [|done]. rewrite Ht. simpl. by rewrite <- app_assoc.
Qed.

(** A handler over the store object and a [next] that preserves [P]. *)
Lemma handle_grows (P : list Event → Prop) `{!Closed P} next m action :
  (∀ evs, silent evs → P evs) →
  (∀ a, preserves (grows P) (next a)) →
  preserves (grows P) (handle baseStore next m action).
Proof.
  intros HP Hnext. apply (preserves_handle _ allow_all); simpl.
  - apply uses_all.
  - done.
  - intros _ u. eapply preserves_mono; [done|apply store_setState_silent].
  - intros _ a. eapply preserves_mono; [done|apply store_dispatch_silent].
  - eapply preserves_mono; [done|apply store_getState_silent].
  - intros l. eapply preserves_mono; [done|apply store_subscribe_silent].
  - eapply preserves_mono; [done|apply dateNow_silent].
  - intros o. eapply preserves_mono; [done|apply newAction_silent].
Qed.

(** The same for a handler that never calls [next], whatever [next] is. *)
Lemma handle_grows_no_next (P : list Event → Prop) `{!Closed P} next m action :
  (∀ evs, silent evs → P evs) →
  never_calls_next m →
  preserves (grows P) (handle baseStore next m action).
Proof.
  intros HP Hm. eapply (preserves_handle _ _ _ _ _ _ Hm); simpl.
  - done.
  - intros _ u. eapply preserves_mono; [done|apply store_setState_silent].
  - intros _ a. eapply preserves_mono; [done|apply store_dispatch_silent].
  - eapply preserves_mono; [done|apply store_getState_silent].
  - intros l. eapply preserves_mono; [done|apply store_subscribe_silent].
  - eapply preserves_mono; [done|apply dateNow_silent].
  - intros o. eapply preserves_mono; [done|apply newAction_silent].
Qed.

(** ** Chains over the store object *)

(** Wrappers are entered in the order of registration. *)
Lemma nest_ordered i ms action :
  preserves (grows (ordered_from i)) (nest baseStore store_dispatch i ms action).
Proof.
  revert i action. induction ms as [|m ms IH]; intros i action; simpl.
  - eapply preserves_mono; [apply silent_ordered_from|apply store_dispatch_silent].
  - intros w.
    destruct (wrap_grows (ordered_from (S i)) baseStore
                (nest baseStore store_dispatch (S i) ms) i m action) with (w:=w)
      as (evs & Ht & Hord).
    { apply handle_grows; [apply _|apply silent_ordered_from|apply IH]. }
    exists (EvMiddleware i action :: evs). split; [done|]. by apply ordered_from_cons.
Qed.

(** Only registered wrappers are entered. *)
Lemma nest_indices_below n i ms action :
  (i + length ms ≤ n)%nat →
  preserves (grows (indices_below n)) (nest baseStore store_dispatch i ms action).
Proof.
  revert i action. induction ms as [|m ms IH]; intros i action Hn; simpl in *.
  - eapply preserves_mono; [apply silent_indices_below|apply store_dispatch_silent].
  - intros w.
    destruct (wrap_grows (indices_below n) baseStore
                (nest baseStore store_dispatch (S i) ms) i m action) with (w:=w)
      as (evs & Ht & Hbelow).
    { apply handle_grows; [apply _|apply silent_indices_below|].
      intros a. apply IH. lia. }
    exists (EvMiddleware i action :: evs). split; [done|].
    apply indices_below_cons; [lia|done].
Qed.

(** No wrapper after one that never calls [next] is entered. *)
Lemma nest_halting_indices inner i pre h post action :
  never_calls_next h →
  preserves (grows (indices_below (S (i + length pre))))
    (nest baseStore inner i (pre ++ h :: post) action).
Proof.
  intros Hh. revert i action. induction pre as [|m pre IH]; intros i action; simpl.
  - intros w.
    destruct (wrap_grows (indices_below (S (i + 0))) baseStore
                (nest baseStore inner (S i) post) i h action) with (w:=w)
      as (evs & Ht & Hbelow).
    { apply handle_grows_no_next; [apply _|apply silent_indices_below|done]. }
    exists (EvMiddleware i action :: evs). split; [done|].
    apply indices_below_cons; [lia|done].
  - intros w.
    destruct (wrap_grows (indices_below (S (i + S (length pre)))) baseStore
                (nest baseStore inner (S i) (pre ++ h :: post)) i m action) with (w:=w)
      as (evs & Ht & Hbelow).
    { apply handle_grows; [apply _|apply silent_indices_below|].
      intros a. replace (i + S (length pre))%nat with (S i + length pre)%nat by lia.
      apply IH. }
    exists (EvMiddleware i action :: evs). split; [done|].
    apply indices_below_cons; [lia|done].
Qed.

(** ** Middleware that leaves the store alone *)

#[global] Instance only_wrappers_closed : Closed only_wrappers.
Proof. apply Forall_closed. Qed.

Lemma store_getState_quiet : preserves (grows_quietly only_wrappers) store_getState.
Proof. intros w. simpl. reflexivity. Qed.

Lemma dateNow_quiet : preserves (grows_quietly only_wrappers) dateNow.
Proof.
  intros w. split; [done|]. split; [done|]. split; [done|].
  exists []. split; [by rewrite app_nil_r|constructor].
Qed.

Lemma newAction_quiet object : preserves (grows_quietly only_wrappers) (newAction object).
Proof.
  intros w. split; [done|]. split; [done|]. split; [by apply prefix_app_r|].
  exists []. split; [by rewrite app_nil_r|constructor].
Qed.

Lemma store_subscribe_quiet listener :
  preserves (grows_quietly only_wrappers) (store_subscribe listener).
Proof.
  intros w. split; [done|]. split; [done|]. split; [done|].
  exists []. split; [by rewrite app_nil_r|constructor].
Qed.

Lemma emit_wrapper_quiet i action :
  preserves (grows_quietly only_wrappers) (emit [EvMiddleware i action]).
Proof.
  intros w. split; [done|]. split; [done|]. split; [done|].
  eexists. split; [done|]. by repeat constructor.
Qed.

Lemma handle_quiet al next m action :
  allow_setState al = false → allow_dispatch al = false →
  uses al m →
  (allow_next al = true → ∀ a, preserves (grows_quietly only_wrappers) (next a)) →
  preserves (grows_quietly only_wrappers) (handle baseStore next m action).
Proof.
  intros Hset Hdisp Hm Hnext. eapply (preserves_handle _ al); simpl.
  - done.
  - done.
  - congruence.
  - congruence.
  - apply store_getState_quiet.
  - apply store_subscribe_quiet.
  - apply dateNow_quiet.
  - apply newAction_quiet.
Qed.

Lemma wrap_quiet al next i m action :
  allow_setState al = false → allow_dispatch al = false →
  uses al m →
  (allow_next al = true → ∀ a, preserves (grows_quietly only_wrappers) (next a)) →
  preserves (grows_quietly only_wrappers) (wrap baseStore next (i, m) action).
Proof.
  intros Hset Hdisp Hm Hnext w. rewrite wrap_handle.
  etrans; [apply emit_wrapper_quiet|]. by eapply handle_quiet.
Qed.

(** Up to a middleware that never calls [next], middleware that leaves the
    store alone changes neither the state, nor the recorder, nor an action
    object, and has nothing called but wrappers. *)
Lemma nest_halting_quiet inner i pre h post action :
  never_calls_next h → leaves_store_alone h → Forall leaves_store_alone pre →
  preserves (grows_quietly only_wrappers)
    (nest baseStore inner i (pre ++ h :: post) action).
Proof.
  intros Hh Hquiet Hpre. revert i action.
  induction Hpre as [|m pre Hm _ IH]; intros i action; simpl.
  - eapply wrap_quiet; [..|exact (uses_both _ _ h Hh Hquiet)|]; done.
  - eapply wrap_quiet; [..|exact Hm|]; [done|done|]. intros _ a. apply IH.
Qed.

(** ** Middleware that passes every action on *)

Lemma invocations_app evs1 evs2 :
  invocations (evs1 ++ evs2) = invocations evs1 ++ invocations evs2.
Proof. apply omap_app. Qed.

Lemma invocations_silent_fmap {A : Type} (f : A → Event) (l : list A) :
  (∀ x, invocation_of (f x) = None) → invocations (f <$> l) = [].
Proof.
  intros Hf. induction l as [|x l IH]; [done|].
  unfold invocations in *. simpl. by rewrite Hf.
Qed.

Lemma returns_ret {A : Type} (Q : A → Prop) (x : A) :
  Q x → returns_invoking Q [] (mret x).
Proof. intros HQ w. exists x, w, []. by rewrite app_nil_r. Qed.

Lemma returns_bind {A B : Type} (Q1 : A → Prop) (Q2 : B → Prop) invs1 invs2
    (m : M A) (f : A → M B) :
  returns_invoking Q1 invs1 m →
  (∀ x, Q1 x → returns_invoking Q2 invs2 (f x)) →
  returns_invoking Q2 (invs1 ++ invs2) (m ≫= f).
Proof.
  intros Hm Hf w. destruct (Hm w) as (x & w1 & evs1 & Hrun1 & Ht1 & Hi1 & HQ1).
  destruct (Hf x HQ1 w1) as (y & w2 & evs2 & Hrun2 & Ht2 & Hi2 & HQ2).
  exists y, w2, (evs1 ++ evs2). unfold mbind, M_bind. rewrite Hrun1, Hrun2.
  split; [done|]. split; [by rewrite Ht2, Ht1, app_assoc|].
  split; [|done]. by rewrite invocations_app, Hi1, Hi2.
Qed.

Lemma store_getState_returns : returns_invoking (λ _, True) [] store_getState.
Proof. intros w. exists (state w), w, []. by rewrite app_nil_r. Qed.

Lemma dateNow_returns : returns_invoking (λ _, True) [] dateNow.
Proof. intros w. eexists _, _, []. simpl. by rewrite app_nil_r. Qed.

Lemma newAction_returns object : returns_invoking (λ _, True) [] (newAction object).
Proof. intros w. eexists _, _, []. simpl. by rewrite app_nil_r. Qed.

Lemma readAction_returns action : returns_invoking (λ _, True) [] (readAction action).
Proof. intros w. eexists _, _, []. simpl. by rewrite app_nil_r. Qed.

Lemma store_subscribe_returns listener :
  returns_invoking (λ _, True) [] (store_subscribe listener).
Proof. intros w. eexists _, _, []. simpl. by rewrite app_nil_r. Qed.

Lemma store_setState_returns updater :
  returns_invoking (λ _, True) [] (store_setState updater).
Proof.
  intros w. rewrite store_setState_eq. eexists _, _, _.
  split; [done|]. split; [simpl; done|]. split; [|done].
  rewrite invocations_app, !invocations_silent_fmap; done.
Qed.

Lemma emit_wrapper_returns i action :
  returns_invoking (λ _, True) [InvMiddleware i] (emit [EvMiddleware i action]).
Proof. intros w. by eexists _, _, _. Qed.

(** A run that returns, followed by one that ends. *)
Lemma ends_bind {A B : Type} (Q1 : A → Prop) (Q2 : B → Prop) invs1 invs2
    (m : M A) (f : A → M B) :
  returns_invoking Q1 invs1 m →
  (∀ x, Q1 x → ends_invoking Q2 invs2 (f x)) →
  ends_invoking Q2 (invs1 ++ invs2) (m ≫= f).
Proof.
  intros Hm Hf w. destruct (Hm w) as (x & w1 & evs1 & Hrun1 & Ht1 & Hi1 & HQ1).
  destruct (Hf x HQ1 w1) as (evs2 & Ht2 & Hi2 & Hres).
  exists (evs1 ++ evs2). unfold mbind, M_bind. rewrite Hrun1.
  split; [by rewrite Ht2, Ht1, app_assoc|].
  split; [|done]. by rewrite invocations_app, Hi1, Hi2.
Qed.

(** A run that ends, followed by one that returns without an invocation. *)
Lemma ends_then_returns {A B : Type} (Q1 : A → Prop) (Q2 : B → Prop) invs
    (m : M A) (f : A → M B) :
  ends_invoking Q1 invs m →
  (∀ x, Q1 x → returns_invoking Q2 [] (f x)) →
  ends_invoking Q2 invs (m ≫= f).
Proof.
  intros Hm Hf w. destruct (Hm w) as (evs1 & Ht1 & Hi1 & Hres).
  unfold mbind, M_bind. destruct (m w) as [[x|e] w1]; simpl in *.
  - destruct (Hf x Hres w1) as (y & w2 & evs2 & Hrun2 & Ht2 & Hi2 & HQ2).
    exists (evs1 ++ evs2). rewrite Hrun2. simpl.
    split; [by rewrite Ht2, Ht1, app_assoc|].
    split; [|done]. by rewrite invocations_app, Hi1, Hi2, app_nil_r.
  - by exists evs1.
Qed.

(** The raw dispatch ends, by returning or by the [TypeError] of its
    assignment, and is the one invocation. *)
Lemma store_dispatch_ends action :
  ends_invoking (λ _, True) [InvRawDispatch] (store_dispatch action).
Proof.
  intros w. rewrite store_dispatch_eq.
  assert (∃ evs, trace (dispatch_entered action w) = trace w ++ evs ∧
                 invocations evs = [InvRawDispatch]) as (evs0 & Ht0 & Hi0).
  { by eexists. }
  destruct (heap w !! action) as [object|]; [|by exists evs0].
  destruct (frozen object); [by exists evs0|].
  eexists. split; [simpl; done|]. split; [|done].
  change (invocations (?e :: ?evs)) with (invocations ([e] ++ evs)).
  rewrite (invocations_app [_]), invocations_app, !invocations_silent_fmap; done.
Qed.

(** A body that never calls [next] returns, whatever [next] is. *)
Lemma exec_forwards_none {A : Type} (Q : A → Prop) next (c : Code A) :
  Forwards 0 Q c → returns_invoking Q [] (exec baseStore next c).
Proof.
  induction c as [r|e|a k IH|k IH|u k IH|l k IH|a k IH|k IH|o k IH|a k IH|o k IH];
    intros Hc; simpl in *.
  - destruct Hc as [_ HQ]. by apply returns_ret.
  - done.
  - done.
  - apply (returns_bind (λ _, True) Q [] []); [apply store_getState_returns|].
    intros s _. by apply IH.
  - apply (returns_bind (λ _, True) Q [] []); [apply store_setState_returns|].
    intros _ _. by apply IH.
  - apply (returns_bind (λ _, True) Q [] []); [apply store_subscribe_returns|].
    intros _ _. by apply IH.
  - done.
  - apply (returns_bind (λ _, True) Q [] []); [apply dateNow_returns|].
    intros t _. by apply IH.
  - apply (returns_bind (λ _, True) Q [] []); [apply newAction_returns|].
    intros action _. by apply IH.
  - apply (returns_bind (λ _, True) Q [] []); [apply readAction_returns|].
    intros seen _. by apply IH.
  - by apply IH.
Qed.

(** A body that calls [next] once has the invocations of [next], and ends
    as [next] ends. *)
Lemma exec_forwards_once {A : Type} (Q : A → Prop) next invs (c : Code A) :
  Forwards 1 Q c →
  (∀ a, ends_invoking (λ _, True) invs (next a)) →
  ends_invoking Q invs (exec baseStore next c).
Proof.
  intros Hc Hnext. revert Hc.
  induction c as [r|e|a k IH|k IH|u k IH|l k IH|a k IH|k IH|o k IH|a k IH|o k IH];
    intros Hc; simpl in *.
  - by destruct Hc.
  - done.
  - eapply ends_then_returns; [apply Hnext|]. intros _ _.
    by apply exec_forwards_none.
  - apply (ends_bind (λ _, True) Q [] invs); [apply store_getState_returns|].
    intros s _. by apply IH.
  - apply (ends_bind (λ _, True) Q [] invs); [apply store_setState_returns|].
    intros _ _. by apply IH.
  - apply (ends_bind (λ _, True) Q [] invs); [apply store_subscribe_returns|].
    intros _ _. by apply IH.
  - done.
  - apply (ends_bind (λ _, True) Q [] invs); [apply dateNow_returns|].
    intros t _. by apply IH.
  - apply (ends_bind (λ _, True) Q [] invs); [apply newAction_returns|].
    intros action _. by apply IH.
  - apply (ends_bind (λ _, True) Q [] invs); [apply readAction_returns|].
    intros seen _. by apply IH.
  - by apply IH.
Qed.

Lemma handle_forwards next invs m action :
  forwards_once m →
  (∀ a, ends_invoking (λ _, True) invs (next a)) →
  ends_invoking (λ _, True) invs (handle baseStore next m action).
Proof.
  intros Hm Hnext.
  apply (ends_bind (λ handler, ∀ a, Forwards 1 (λ _, True) (handler a))
           (λ _, True) [] invs).
  - by apply exec_forwards_none.
  - intros handler Hh. by apply exec_forwards_once.
Qed.

(** A chain of forwarding middleware enters its wrappers in the order of
    registration, once each, then the raw dispatch. *)
Lemma nest_forwards i ms action :
  Forall forwards_once ms →
  ends_invoking (λ _, True)
    ((InvMiddleware <$> seq i (length ms)) ++ [InvRawDispatch])
    (nest baseStore store_dispatch i ms action).
Proof.
  intros Hms. revert i action.
  induction Hms as [|m ms Hm _ IH]; intros i action; simpl.
  - apply store_dispatch_ends.
  - apply (ends_bind (λ _, True) (λ _, True) [InvMiddleware i]);
      [apply emit_wrapper_returns|].
    intros _ _. apply handle_forwards; [done|]. intros a. apply IH.
Qed.

(** ** The two properties of the pipeline *)

(** C1.  The dispatch that [createStore] returns for the registered
    middleware [ms] invokes the handlers in the order of registration,
    although [applyMiddleware] folds [ms] from the right: it calls the
    first middleware with the store and, as [next], the chain of the
    others, then calls the handler it got with the dispatched action, and
    so on down to the raw dispatch.  For handlers that do something of
    their own before and after passing the action on, what they do happens
    in this order: what the first does before, what the second does
    before, ..., the raw dispatch, ..., what the second does after, what
    the first does after.  On every dispatched action, whatever the
    middleware does, a wrapper is entered only after the wrapper
    registered just before it, the first one first and with the dispatched
    action, and no other wrapper is entered.  When every middleware passes
    the action on once, the calls are exactly: wrapper 0, wrapper 1, ...,
    the last wrapper, then the raw dispatch, and the dispatch returns or
    throws the [TypeError] of the raw dispatch. *)
Theorem middleware_runs_in_registration_order
    (options : StoreOptions) (ms : list Middleware) (action : ActionRef) (w : World) :
  middleware options = Some ms →
  let store := createStore options in
  let evs := events_since w (dispatch store action w).2 in
  dispatch store = pipeline baseStore store_dispatch 0 ms ∧
  (∀ hs, ms = (λ h, around h.1 h.2) <$> hs →
         Forall (λ h, ∀ a, calls_no_next (h.1 a) ∧ calls_no_next (h.2 a)) hs →
         dispatch store action w = onion 0 hs action w) ∧
  (∀ k j a, evs !! k = Some (EvMiddleware (S j) a) →
            ∃ k' a', (k' < k)%nat ∧ evs !! k' = Some (EvMiddleware j a')) ∧
  (∀ j a, EvMiddleware j a ∈ evs → (j < length ms)%nat) ∧
  (ms ≠ [] → head evs = Some (EvMiddleware 0 action)) ∧
  (Forall forwards_once ms →
     invocations evs = (InvMiddleware <$> seq 0 (length ms)) ++ [InvRawDispatch] ∧
     ((dispatch store action w).1 = Normal () ∨
      (dispatch store action w).1 = Throw TypeError)).
Proof.
  intros Hms store evs. unfold evs, store.
  rewrite (createStore_dispatch options ms Hms).
  split; [apply nest_pipeline|].
  split; [intros hs -> Hhs; by apply nest_onion|].
  split; [|split; [|split]].
  - destruct (nest_ordered 0 ms action w) as (evs' & Ht & Hord).
    rewrite (events_since_app _ _ _ Ht). intros k j a Hk.
    destruct (Hord k (S j) a Hk) as [_ Hpred]. apply Hpred. lia.
  - destruct (nest_indices_below (length ms) 0 ms action) with (w:=w)
      as (evs' & Ht & Hbelow); [lia|].
    by rewrite (events_since_app _ _ _ Ht).
  - destruct ms as [|m ms']; [done|]. intros _. simpl.
    destruct (wrap_grows (λ _, True) baseStore
                (nest baseStore store_dispatch 1 ms') 0 m action) with (w:=w)
      as (evs' & Ht & _).
    { intros w1.
      destruct (handle_grows (ordered_from 1)
                  (nest baseStore store_dispatch 1 ms') m action) with (w:=w1)
        as (evs1 & Ht1 & _).
      - apply silent_ordered_from.
      - intros a. apply nest_ordered.
      - by exists evs1. }
    by rewrite (events_since_app _ _ _ Ht).
  - intros Hfw.
    destruct (nest_forwards 0 ms action Hfw w) as (evs' & Ht & Hinv & Hres).
    rewrite (events_since_app _ _ _ Ht). split; [done|].
    destruct (nest baseStore store_dispatch 0 ms action w).1 as [[]|e];
      [by left|right; by rewrite Hres].
Qed.

(** C7.  When a registered middleware [h] never calls [next], then on
    every dispatched action no wrapper registered after [h] is entered, and
    the run is the same whatever stands downstream of [h]: other
    middleware, or any function in the place of the raw dispatch.  If
    moreover [h] and the middleware before it do not themselves call
    [setState] or [dispatch] on the store, then the state and the recorder
    with its two histories are as before, the store stamped no action
    object (the objects there were are as they were), and nothing was
    called but wrappers up to that of [h]: the raw dispatch was not entered
    and no listener of the store or of the recorder was called. *)
Theorem halting_middleware_stops_the_chain
    (options : StoreOptions) (pre post : list Middleware) (h : Middleware)
    (action : ActionRef) (w : World) :
  middleware options = Some (pre ++ h :: post) →
  never_calls_next h →
  let r := dispatch (createStore options) action w in
  let evs := events_since w r.2 in
  (∀ j a, EvMiddleware j a ∈ evs → (j ≤ length pre)%nat) ∧
  (∀ post' inner, r = chain baseStore inner (pre ++ h :: post') action w) ∧
  (Forall leaves_store_alone pre → leaves_store_alone h →
     state r.2 = state w ∧
     devTools r.2 = devTools w ∧
     heap w `prefix_of` heap r.2 ∧
     ∀ e, e ∈ evs → ∃ j a, e = EvMiddleware j a ∧ (j ≤ length pre)%nat).
Proof.
  intros Hms Hh r evs. unfold evs, r.
  rewrite (createStore_dispatch options _ Hms).
  assert (∀ j a,
            EvMiddleware j a
              ∈ events_since w
                  (nest baseStore store_dispatch 0 (pre ++ h :: post) action w).2 →
            (j ≤ length pre)%nat) as Hbelow.
  { destruct (nest_halting_indices store_dispatch 0 pre h post action Hh w)
      as (evs' & Ht & Hbelow).
    rewrite (events_since_app _ _ _ Ht). intros j a Hin.
    specialize (Hbelow j a Hin). simpl in Hbelow. lia. }
  split; [done|]. split.
  - intros post' inner. rewrite chain_nest.
    by apply (nest_halting {| allow_next := false; allow_setState := true;
                              allow_dispatch := true |}).
  - intros Hpre Hquiet.
    destruct (nest_halting_quiet store_dispatch 0 pre h post action Hh Hquiet Hpre w)
      as (Hst & Hdev & Hheap & evs' & Ht & Honly).
    split; [done|]. split; [done|]. split; [done|].
    intros e He. pose proof He as He'.
    rewrite (events_since_app _ _ _ Ht) in He'.
    unfold only_wrappers in Honly. rewrite Forall_forall in Honly.
    specialize (Honly e He'). destruct e as [| | |j a]; try done.
    exists j, a. split; [done|]. by eapply Hbelow.
Qed.

(* ===================================================================== *)
(** * Concrete runs *)
(* ===================================================================== *)

(** Scenario 4: with bound 5, after ten records five entries remain and
    [getStateAt(0)] is the state of the tenth record. *)
Example scenario4_keeps_the_newest_five :
  length (DevTools.getStateHistory scenario4_recorder) = 5%nat ∧
  length (DevTools.getActionHistory scenario4_recorder) = 5%nat ∧
  DevTools.getStateAt 0 scenario4_recorder = Found (count_state 10) ∧
  DevTools.getActionAt 4 scenario4_recorder = Found (numbered_action 6) ∧
  DevTools.getActionAt 5 scenario4_recorder = Null.
Proof. repeat split; vm_compute; reflexivity. Qed.

(** Scenario 5: a recorder constructed disabled records nothing. *)
Example scenario5_disabled_records_nothing :
  let d := DevTools.new true {| DevTools.opt_name := None;
                                DevTools.opt_enabled := Some false |} in
  length (DevTools.getStateHistory
            (DevTools.record (numbered_action 1) (count_state 1) d).1) = 0%nat.
Proof. by vm_compute. Qed.

(** A negative bound makes [setMaxHistorySize] loop for ever. *)
Example setMaxHistorySize_negative_diverges fuel d :
  DevTools.setMaxHistorySize_fuel fuel (-1) d = None.
Proof.
  unfold DevTools.setMaxHistorySize_fuel. by rewrite evictLoop_diverges by lia.
Qed.

(** Scenarios 1 and 3: on the store of [createStore({ initialState:
    {count: 0} })], after [subscribe(L)] the call [setState({count: 1})]
    makes the state [{count: 1}] and calls [L] exactly once, with that
    state and the synthesized [SET_STATE] action, a new object. *)
Example scenario3_setState_notifies_once :
  let store := createStore plain_options in
  let w0 := initialWorld true (λ _, 1000) [] plain_options in
  let w1 := (subscribe store 7%nat w0).2 in
  let w2 := (setState store (UObj (count_state 1)) w1).2 in
  (getState store w2).1 = Normal (count_state 1) ∧
  events_since w1 w2
  = [EvListener 7 (count_state 1) 0
       (Some {| type := "SET_STATE"; payload := Some (VObj (count_state 1));
                timestamp := Some 1000 |})] ∧
  DevTools.getStateAt 0 (devTools w2) = Found (count_state 1) ∧
  DevTools.getActionAt 0 (devTools w2) = Found 0%nat.
Proof. repeat split; vm_compute; reflexivity. Qed.

(** Three forwarding middleware, the logger first, the second of which
    calls [setState] after [next]: the wrappers, the raw dispatch with its
    listener call, then the listener call of [setState]. *)
Example three_middleware_run :
  let action := numbered_action 1 in
  let r := dispatch (createStore (chain_options [createLogger; marking; passing]))
             action plain_world in
  r.1 = Normal () ∧
  events_since plain_world r.2
  = [EvMiddleware 0 action; EvMiddleware 1 action; EvMiddleware 2 action;
     EvDispatch action;
     EvListener 7 (count_state 0) action (Some (stamped 1000 (numbered_fields 1)));
     EvListener 7 (<["seen" := VBool true]> (count_state 0)) (length sample_objects)
       (Some {| type := "SET_STATE";
                payload := Some (VObj {[ "seen" := VBool true ]});
                timestamp := Some 1000 |})].
Proof. by vm_compute. Qed.

(** Two middleware that call [setState] before and after [next]: the
    listener sees what the first did before, what the second did before,
    the dispatched action, what the second did after, what the first did
    after. *)
Example announcing_middleware_run :
  let action := numbered_action 1 in
  let ms := (λ h, around h.1 h.2) <$> [announcing "A"; announcing "B"] in
  let r := dispatch (createStore (chain_options ms)) action plain_world in
  r.1 = Normal () ∧
  (λ e, match e with
        | EvListener _ _ _ (Some properties) => Some (type properties, payload properties)
        | _ => None
        end) <$> events_since plain_world r.2
  = [None;
     Some ("SET_STATE", Some (VObj {[ "entered" := VStr "A" ]}));
     None;
     Some ("SET_STATE", Some (VObj {[ "entered" := VStr "B" ]}));
     None;
     Some ("ACTION", Some (VNum 1));
     Some ("SET_STATE", Some (VObj {[ "left" := VStr "B" ]}));
     Some ("SET_STATE", Some (VObj {[ "left" := VStr "A" ]}))].
Proof. by vm_compute. Qed.

Lemma middleware_runs_in_registration_order_witness :
  let hs := [announcing "A"; announcing "B"] in
  let ms := (λ h, around h.1 h.2) <$> hs in
  let action := numbered_action 1 in
  let r := dispatch (createStore (chain_options ms)) action plain_world in
  middleware (chain_options ms) = Some ms ∧
  Forall (λ h, ∀ a, calls_no_next (h.1 a) ∧ calls_no_next (h.2 a)) hs ∧
  Forall forwards_once ms ∧
  dispatch (createStore (chain_options ms)) = pipeline baseStore store_dispatch 0 ms ∧
  r = onion 0 hs action plain_world ∧
  invocations (events_since plain_world r.2)
  = [InvMiddleware 0; InvMiddleware 1; InvRawDispatch] ∧
  (r.1 = Normal () ∨ r.1 = Throw TypeError).
Proof.
  intros hs ms action r.
  assert (Forall (λ h, ∀ a, calls_no_next (h.1 a) ∧ calls_no_next (h.2 a)) hs) as Hhs.
  { repeat (apply Forall_cons_2; [intros a; unfold calls_no_next; simpl; auto|]).
    apply Forall_nil_2. }
  assert (Forall forwards_once ms) as Hfw.
  { repeat (apply Forall_cons_2; [unfold forwards_once; simpl; intuition auto|]).
    apply Forall_nil_2. }
  split; [reflexivity|]. split; [exact Hhs|]. split; [exact Hfw|].
  destruct (middleware_runs_in_registration_order
              (chain_options ms) ms action plain_world eq_refl)
    as (Hpipe & Honion & _ & _ & _ & Hrun).
  split; [exact Hpipe|]. split; [exact (Honion hs eq_refl Hhs)|].
  exact (Hrun Hfw).
Defined.

Lemma history_bounded_fifo_lockstep_witness :
  Forall DevTools.op_ok scenario4_ops ∧
  ∃ d ns,
    DevTools.run scenario4_ops (DevTools.new true no_options) = Some (d, ns) ∧
    length (DevTools.stateHistory d) = length (DevTools.actionHistory d) ∧
    Z.of_nat (length (DevTools.stateHistory d)) ≤ DevTools.maxHistorySize d.
Proof.
  assert (Forall DevTools.op_ok scenario4_ops) as Hok.
  { repeat (apply Forall_cons_2; [simpl; try lia; exact I|]). apply Forall_nil_2. }
  split; [exact Hok|].
  destruct (history_bounded_fifo_lockstep true no_options scenario4_ops Hok)
    as (d & ns & Hrun & Hlen & Hmax & _).
  exists d, ns. auto.
Defined.

Lemma dispatch_without_middleware_keeps_state_witness :
  let action := numbered_action 1 in
  let object := {| fields := numbered_fields 1; frozen := false |} in
  (middleware plain_options = None ∨ middleware plain_options = Some []) ∧
  heap plain_world !! action = Some object ∧
  frozen object = false ∧
  (dispatch (createStore plain_options) action plain_world).1 = Normal () ∧
  state (dispatch (createStore plain_options) action plain_world).2
  = state plain_world ∧
  state (dispatch (createStore plain_options) frozen_action plain_world).2
  = state plain_world.
Proof.
  intros action object.
  assert (middleware plain_options = None ∨ middleware plain_options = Some [])
    as Hmw by (left; reflexivity).
  split; [exact Hmw|]. split; [reflexivity|]. split; [reflexivity|].
  destruct (dispatch_without_middleware_keeps_state
              plain_options action plain_world Hmw) as (Hret & _ & _ & Hst & _).
  destruct (dispatch_without_middleware_keeps_state
              plain_options frozen_action plain_world Hmw) as (_ & _ & _ & Hst' & _).
  split; [exact (Hret object eq_refl eq_refl)|]. split; [exact Hst|exact Hst'].
Defined.



Lemma halting_middleware_stops_the_chain_witness :
  let action := numbered_action 1 in
  let options := chain_options ([passing] ++ halting :: [passing]) in
  let r := dispatch (createStore options) action plain_world in
  middleware options = Some ([passing] ++ halting :: [passing]) ∧
  never_calls_next halting ∧
  Forall leaves_store_alone [passing] ∧
  leaves_store_alone halting ∧
  (∀ j a, EvMiddleware j a ∈ events_since plain_world r.2 → (j ≤ 1)%nat) ∧
  state r.2 = state plain_world ∧
  devTools r.2 = devTools plain_world ∧
  heap plain_world `prefix_of` heap r.2 ∧
  (∀ e, e ∈ events_since plain_world r.2 →
        ∃ j a, e = EvMiddleware j a ∧ (j ≤ 1)%nat).
Proof.
  intros action options r.
  assert (never_calls_next halting) as Hh by (intros a; exact I).
  assert (Forall leaves_store_alone [passing]) as Hpre.
  { apply Forall_cons_2; [|apply Forall_nil_2]. intros a. simpl. auto. }
  assert (leaves_store_alone halting) as Hquiet by (intros a; exact I).
  destruct (halting_middleware_stops_the_chain
              options [passing] [passing] halting action plain_world eq_refl Hh)
    as (Hbelow & _ & Hrest).
  destruct (Hrest Hpre Hquiet) as (Hst & Hdev & Hheap & Honly).
  split; [reflexivity|]. split; [exact Hh|]. split; [exact Hpre|].
  split; [exact Hquiet|]. split; [exact Hbelow|]. split; [exact Hst|].
  split; [exact Hdev|]. split; [exact Hheap|exact Honly].
Defined.

Lemma getAt_counts_from_most_recent_witness :
  let d := scenario4_recorder in
  let sh := DevTools.stateHistory d in
  0 ≤ 0 < Z.of_nat (length sh) ∧
  (∃ s, sh !! (length sh - 1 - Z.to_nat 0)%nat = Some s ∧
        DevTools.getStateAt 0 d = Found s) ∧
  (7 < 0 ∨ Z.of_nat (length sh) ≤ 7) ∧
  DevTools.getStateAt 7 d = Null.
Proof.
  intros d sh.
  assert (0 ≤ 0 < Z.of_nat (length sh)) as Hin by (vm_compute; split; congruence).
  assert (7 < 0 ∨ Z.of_nat (length sh) ≤ 7) as Hout
    by (right; vm_compute; congruence).
  split; [exact Hin|].
  split; [exact (proj1 (getAt_counts_from_most_recent d 0) Hin)|].
  split; [exact Hout|].
  exact (proj1 (proj2 (getAt_counts_from_most_recent d 7)) Hout).
Defined.

Lemma disabled_recorder_is_inert_witness :
  let d := DevTools.new false no_options in
  DevTools.enabled d = false ∧
  DevTools.record (numbered_action 1) (count_state 1) d = (d, []) ∧
  (DevTools.subscribe 3 d).1 = d.
Proof.
  intros d.
  destruct (disabled_recorder_is_inert d eq_refl) as (Hrec & Hsub & _).
  split; [reflexivity|]. split; [apply Hrec|]. apply (Hsub 3%nat).
Defined.

(* ===================================================================== *)
(** * Further properties of the history recorder *)
(* ===================================================================== *)

Lemma record_keeps_settings action state d :
  DevTools.enabled (DevTools.record action state d).1 = DevTools.enabled d ∧
  DevTools.maxHistorySize (DevTools.record action state d).1 = DevTools.maxHistorySize d ∧
  DevTools.listeners (DevTools.record action state d).1 = DevTools.listeners d.
Proof. unfold DevTools.record. destruct (DevTools.enabled d) eqn:Hen; simpl; auto. Qed.

Lemma record_all_snoc calls call d :
  record_all (calls ++ [call]) d
  = (DevTools.record call.1 call.2 (record_all calls d)).1.
Proof. unfold record_all. by rewrite fold_left_app. Qed.

(** The histories after a run of records on an enabled recorder. *)
Lemma record_all_histories calls d :
  DevTools.enabled d = true → history_inv d →
  let k := Z.to_nat (Z.of_nat (length (DevTools.stateHistory d) + length calls)
                     - DevTools.maxHistorySize d) in
  DevTools.enabled (record_all calls d) = true ∧
  DevTools.maxHistorySize (record_all calls d) = DevTools.maxHistorySize d ∧
  history_inv (record_all calls d) ∧
  DevTools.stateHistory (record_all calls d)
    = drop k (DevTools.stateHistory d ++ calls.*2) ∧
  DevTools.actionHistory (record_all calls d)
    = drop k (DevTools.actionHistory d ++ calls.*1).
Proof.
  intros Hen Hinv. induction calls as [|call calls IH] using rev_ind; intros k.
  - unfold k. simpl. destruct Hinv as [Hlen Hmax].
    replace (Z.to_nat _) with 0%nat by lia. by rewrite !app_nil_r.
  - destruct IH as (Hen' & Hmax' & Hinv' & Hs & Ha).
    rewrite record_all_snoc.
    destruct (record_histories call.1 call.2 _ Hen' Hinv') as (Hs1 & Ha1 & Hm1 & Hk1).
    destruct (record_keeps_settings call.1 call.2 (record_all calls d)) as (He2 & _ & _).
    split; [by rewrite He2|]. split; [by rewrite Hm1|].
    split; [by apply record_inv|].
    pose proof Hinv as [Hlen Hmax]. pose proof Hinv' as [Hlen' Hmaxl'].
    assert (Z.of_nat (length (DevTools.stateHistory (record_all calls d)))
            = Z.min (Z.of_nat (length (DevTools.stateHistory d) + length calls))
                    (DevTools.maxHistorySize d)) as Hsize.
    { rewrite Hs, length_drop, length_app, length_fmap. lia. }
    rewrite Hs1, Ha1, Hmax', Hs, Ha, !fmap_app. simpl.
    rewrite !(assoc_L (++)). rewrite <- !drop_app_le.
    2:{ rewrite length_app, length_fmap. lia. }
    2:{ rewrite length_app, length_fmap. lia. }
    rewrite !drop_drop. unfold k. rewrite length_app. simpl.
    rewrite <- Hs, Hsize.
    split; f_equal; lia.
Qed.

(** X1.  A run of [record] calls on an enabled recorder keeps the newest
    entries: both histories are the old entries followed by the recorded
    ones, without the same number [k] of oldest entries, [k] being the
    excess over the bound; their length is the smaller of the bound and
    the number of entries offered. *)
Theorem record_all_keeps_the_newest (calls : list (ActionRef * State)) (d : DevTools.t) :
  DevTools.enabled d = true → history_inv d →
  let offered := Z.of_nat (length (DevTools.stateHistory d) + length calls) in
  let k := Z.to_nat (offered - DevTools.maxHistorySize d) in
  DevTools.getStateHistory (record_all calls d)
    = drop k (DevTools.stateHistory d ++ calls.*2) ∧
  DevTools.getActionHistory (record_all calls d)
    = drop k (DevTools.actionHistory d ++ calls.*1) ∧
  Z.of_nat (length (DevTools.getStateHistory (record_all calls d)))
    = Z.min offered (DevTools.maxHistorySize d).
Proof.
  intros Hen Hinv offered k.
  destruct (record_all_histories calls d Hen Hinv) as (_ & _ & _ & Hs & Ha).
  unfold DevTools.getStateHistory, DevTools.getActionHistory.
  split; [exact Hs|]. split; [exact Ha|].
  rewrite Hs, length_drop, length_app, length_fmap.
  destruct Hinv as [_ Hmax]. unfold offered. lia.
Qed.

(** X2.  After a run of [record] calls on an enabled recorder,
    [getStateAt(i)] and [getActionAt(i)] return the state and the action
    of one and the same call, the one made [i] calls before the last, for
    every [i] below the number of calls and below the bound. *)
Theorem getAt_returns_the_pair_of_one_record
    (calls : list (ActionRef * State)) (d : DevTools.t) (i : nat)
    (action : ActionRef) (state : State) :
  DevTools.enabled d = true → history_inv d →
  (i < length calls)%nat → Z.of_nat i < DevTools.maxHistorySize d →
  calls !! (length calls - 1 - i)%nat = Some (action, state) →
  DevTools.getStateAt (Z.of_nat i) (record_all calls d) = Found state ∧
  DevTools.getActionAt (Z.of_nat i) (record_all calls d) = Found action.
Proof.
  intros Hen Hinv Hi Himax Hcall.
  destruct (record_all_histories calls d Hen Hinv) as (_ & _ & Hinv' & Hs & Ha).
  pose proof Hinv as [Hlen Hmax]. pose proof Hinv' as [Hlen' _].
  set (k := Z.to_nat (Z.of_nat (length (DevTools.stateHistory d) + length calls)
                      - DevTools.maxHistorySize d)) in *.
  assert (length (DevTools.stateHistory (record_all calls d))
          = (length (DevTools.stateHistory d) + length calls - k)%nat) as Hsize.
  { rewrite Hs, length_drop, length_app, length_fmap. lia. }
  assert (∀ {A : Type} (old new : list A),
            length old = length (DevTools.stateHistory d) →
            length new = length calls →
            drop k (old ++ new)
              !! (length (DevTools.stateHistory d) + length calls - k - 1 - i)%nat
            = new !! (length calls - 1 - i)%nat) as Hnewest.
  { intros A old new Hold Hnew. rewrite lookup_drop, lookup_app_r by lia.
    f_equal. lia. }
  unfold DevTools.getStateAt, DevTools.getActionAt.
  rewrite !getAt_spec, <- Hlen', Hsize, !decide_True by lia.
  rewrite Nat2Z.id, Hs, Ha.
  rewrite !Hnewest by (by rewrite ?length_fmap).
  by rewrite !list_lookup_fmap, Hcall.
Qed.

(** Reading from the newest end is not disturbed by dropping old entries. *)
Lemma getAt_drop {A : Type} (h : list A) (size i : Z) :
  0 ≤ size →
  let h' := drop (Z.to_nat (Z.of_nat (length h) - size)) h in
  (if (i <? 0) || (i >=? Z.of_nat (length h')) then Null
   else array_get h' (Z.of_nat (length h') - 1 - i))
  = if decide (i < size)
    then (if (i <? 0) || (i >=? Z.of_nat (length h)) then Null
          else array_get h (Z.of_nat (length h) - 1 - i))
    else Null.
Proof.
  intros Hsize h'. rewrite !getAt_spec.
  assert (Z.of_nat (length h') = Z.min (Z.of_nat (length h)) size) as Hlen'.
  { unfold h'. rewrite length_drop. lia. }
  destruct (decide (i < size)) as [Hi|Hi].
  - destruct (decide (0 ≤ i < Z.of_nat (length h'))) as [Hin|Hout].
    + rewrite decide_True by lia. unfold h'. rewrite lookup_drop. do 2 f_equal.
      fold h'. lia.
    + by rewrite decide_False by lia.
  - by rewrite decide_False by lia.
Qed.

(** X3.  [setMaxHistorySize(size)] with a non-negative size leaves what
    [getStateAt(i)] and [getActionAt(i)] return unchanged for every index
    below [size], and makes them return [null] from [size] on: counted
    from the newest entry, the surviving entries keep their index. *)
Theorem setMaxHistorySize_keeps_recent_indices (size : Z) (d d' : DevTools.t) (i : Z) :
  0 ≤ size →
  length (DevTools.stateHistory d) = length (DevTools.actionHistory d) →
  DevTools.setMaxHistorySize size d = Some d' →
  (i < size → DevTools.getStateAt i d' = DevTools.getStateAt i d ∧
              DevTools.getActionAt i d' = DevTools.getActionAt i d) ∧
  (size ≤ i → DevTools.getStateAt i d' = Null ∧ DevTools.getActionAt i d' = Null).
Proof.
  intros Hsize Hlen Hset.
  destruct (setMaxHistorySize_histories size d Hsize) as (d'' & Hset' & Hs & Ha & _).
  rewrite Hset in Hset'. injection Hset' as <-.
  rewrite Hlen in Ha.
  unfold DevTools.getStateAt, DevTools.getActionAt. rewrite Hs, Ha.
  rewrite !getAt_drop by done.
  split; intros Hi.
  - by rewrite !decide_True by done.
  - by rewrite !decide_False by lia.
Qed.

(** X4.  [setMaxHistorySize(size)] with a negative size never returns:
    the loop test [length > size] still holds on the empty history, where
    [shift] removes nothing. *)
Theorem setMaxHistorySize_negative_never_returns (size : Z) (d : DevTools.t) (fuel : nat) :
  size < 0 → DevTools.setMaxHistorySize_fuel fuel size d = None.
Proof.
  intros Hsize. unfold DevTools.setMaxHistorySize_fuel.
  by rewrite evictLoop_diverges.
Qed.

Lemma set_add_NoDup x s : NoDup s → NoDup (set_add x s).
Proof.
  intros Hs. unfold set_add. case_decide; [done|].
  apply NoDup_app. split; [done|]. split; [|apply NoDup_singleton].
  intros y Hy ->%list_elem_of_singleton. done.
Qed.

Lemma set_delete_NoDup x s : NoDup s → NoDup (set_delete x s).
Proof. apply NoDup_filter. Qed.




(* ===================================================================== *)
(** * Further properties of the store *)
(* ===================================================================== *)

#[global] Instance keeps_preorder (I : World → Prop) : PreOrder (keeps I).
Proof. split; unfold keeps; [intros w; auto|intros w1 w2 w3; auto]. Qed.

(** What the methods of the store object preserve, every chain over them
    preserves. *)
Lemma nest_preserves (R : relation World) `{!PreOrder R} ms :
  preserves R store_getState →
  (∀ u, preserves R (store_setState u)) →
  (∀ l, preserves R (store_subscribe l)) →
  (∀ a, preserves R (store_dispatch a)) →
  preserves R dateNow →
  (∀ o, preserves R (newAction o)) →
  (∀ i a, preserves R (emit [EvMiddleware i a])) →
  ∀ i action, preserves R (nest baseStore store_dispatch i ms action).
Proof.
  intros Hget Hset Hsub Hdisp Hnow Hnew Hemit.
  induction ms as [|m ms IH]; intros i action; simpl; [apply Hdisp|].
  intros w. rewrite wrap_handle. etrans; [apply Hemit|].
  apply (preserves_handle R allow_all); simpl; auto using uses_all.
Qed.

Lemma createStore_dispatch_preserves (R : relation World) `{!PreOrder R} options :
  preserves R store_getState →
  (∀ u, preserves R (store_setState u)) →
  (∀ l, preserves R (store_subscribe l)) →
  (∀ a, preserves R (store_dispatch a)) →
  preserves R dateNow →
  (∀ o, preserves R (newAction o)) →
  (∀ i a, preserves R (emit [EvMiddleware i a])) →
  ∀ action, preserves R (dispatch (createStore options) action).
Proof.
  intros Hget Hset Hsub Hdisp Hnow Hnew Hemit action.
  destruct (middleware options) as [ms|] eqn:Hms.
  - rewrite (createStore_dispatch options ms Hms). by apply nest_preserves.
  - rewrite createStore_no_middleware by auto. apply Hdisp.
Qed.

Lemma do_calls_preserves (R : relation World) `{!PreOrder R} options calls :
  preserves R store_getState →
  (∀ u, preserves R (store_setState u)) →
  (∀ l, preserves R (store_subscribe l)) →
  (∀ l, preserves R (store_unsubscribe l)) →
  (∀ a, preserves R (store_dispatch a)) →
  preserves R dateNow →
  (∀ o, preserves R (newAction o)) →
  (∀ i a, preserves R (emit [EvMiddleware i a])) →
  preserves R (do_calls (createStore options) calls).
Proof.
  intros Hget Hset Hsub Hunsub Hdisp Hnow Hnew Hemit.
  induction calls as [|call calls IH]; simpl; [apply (preserves_ret R)|].
  apply (preserves_bind R); [|done].
  destruct call as [|u|l|l|a]; simpl.
  - apply (preserves_bind R); [|intros; apply (preserves_ret R)].
    by rewrite createStore_getState.
  - by rewrite createStore_setState.
  - apply (preserves_bind R); [|intros; apply (preserves_ret R)].
    by rewrite createStore_subscribe.
  - done.
  - by apply createStore_dispatch_preserves.
Qed.

(** ** The invariant of the store *)

Lemma initialWorld_inv development clk objects options :
  store_inv (default development (opt_devTools options))
    (initialWorld development clk objects options).
Proof.
  unfold store_inv. simpl. split; [apply NoDup_nil_2|].
  split; [done|]. split; [done|]. split; [done|].
  split; [split; simpl; [done|lia]|].
  split; [done|]. split; [done|]. apply Forall_nil_2.
Qed.

(** [record] on the recorder of a store. *)
Lemma record_store_inv en action s w :
  store_inv en w →
  let r := DevTools.record action s (devTools w) in
  r.2 = [] ∧
  DevTools.enabled r.1 = en ∧
  DevTools.listeners r.1 = [] ∧
  DevTools.maxHistorySize r.1 = 100 ∧
  history_inv r.1 ∧
  (en = false → DevTools.stateHistory r.1 = []) ∧
  (∀ s', last (DevTools.stateHistory r.1) = Some s' → s' = s).
Proof.
  intros (Hnd & Hen & Hls & Hmax & Hinv & Hoff & Hlast & Htr) r.
  destruct (record_keeps_settings action s (devTools w)) as (He & Hm & Hl).
  fold r in He, Hm, Hl.
  split.
  { unfold r, DevTools.record. destruct (DevTools.enabled (devTools w)); [|done].
    simpl. unfold DevTools.notifyListeners. simpl. by rewrite Hls. }
  split; [congruence|]. split; [congruence|]. split; [congruence|].
  split; [by apply record_inv|].
  destruct en.
  - split; [done|]. intros s' Hs'.
    destruct (record_newest action s (devTools w)) as [_ Hnew]; [done|done|lia|].
    fold r in Hnew. congruence.
  - assert (r.1 = devTools w) as ->.
    { unfold r, DevTools.record. by rewrite Hen. }
    split; [auto|]. intros s'. by rewrite Hoff.
Qed.

Lemma store_getState_inv en : preserves (keeps (store_inv en)) store_getState.
Proof. intros w. simpl. reflexivity. Qed.

Lemma dateNow_inv en : preserves (keeps (store_inv en)) dateNow.
Proof. intros w Hinv. exact Hinv. Qed.

Lemma newAction_inv en object : preserves (keeps (store_inv en)) (newAction object).
Proof. intros w Hinv. exact Hinv. Qed.

Lemma emit_wrapper_inv en i action :
  preserves (keeps (store_inv en)) (emit [EvMiddleware i action]).
Proof.
  intros w (Hnd & Hen & Hls & Hmax & Hinv & Hoff & Hlast & Htr).
  repeat split; try done; try apply Hinv. simpl.
  apply Forall_app. split; [done|]. apply Forall_cons_2; [|apply Forall_nil_2].
  intros H. exact H.
Qed.

Lemma store_subscribe_inv en l : preserves (keeps (store_inv en)) (store_subscribe l).
Proof.
  intros w (Hnd & Hen & Hls & Hmax & Hinv & Hoff & Hlast & Htr).
  repeat split; try done; try apply Hinv. simpl. by apply set_add_NoDup.
Qed.

Lemma store_unsubscribe_inv en l : preserves (keeps (store_inv en)) (store_unsubscribe l).
Proof.
  intros w (Hnd & Hen & Hls & Hmax & Hinv & Hoff & Hlast & Htr).
  repeat split; try done; try apply Hinv. simpl. by apply set_delete_NoDup.
Qed.

Lemma store_setState_inv en u : preserves (keeps (store_inv en)) (store_setState u).
Proof.
  intros w Hw. rewrite store_setState_eq. simpl.
  match goal with |- context [DevTools.record ?a ?s (devTools w)] =>
    destruct (record_store_inv en a s w Hw) as (Hns & He & Hl & Hm & Hi & Hoff & Hlast)
  end.
  destruct Hw as (Hnd & _ & _ & _ & _ & _ & _ & Htr).
  unfold store_inv. simpl. rewrite Hns. simpl.
  repeat split; try done; try apply Hi.
  apply Forall_app. split; [done|]. apply Forall_fmap, Forall_true. intros l H. exact H.
Qed.

Lemma store_dispatch_inv en a : preserves (keeps (store_inv en)) (store_dispatch a).
Proof.
  intros w Hw. rewrite store_dispatch_eq.
  assert (store_inv en (dispatch_entered a w)) as Hentered.
  { destruct Hw as (Hnd & Hen & Hls & Hmax & Hinv & Hoff & Hlast & Htr).
    repeat split; try done; try apply Hinv. simpl.
    apply Forall_app. split; [done|]. apply Forall_cons_2; [|apply Forall_nil_2].
    intros H. exact H. }
  destruct (heap w !! a) as [object|]; [|done].
  destruct (frozen object); [done|]. simpl.
  destruct (record_store_inv en a (state w) w Hw)
    as (Hns & He & Hl & Hm & Hi & Hoff & Hlast).
  destruct Hw as (Hnd & _ & _ & _ & _ & _ & _ & Htr).
  unfold store_inv, dispatch_done. simpl. rewrite Hns. simpl.
  repeat split; try done; try apply Hi.
  apply Forall_app. split; [done|]. apply Forall_cons_2; [intros H; exact H|].
  apply Forall_fmap, Forall_true. intros l H. exact H.
Qed.

(** The invariant holds after every run of calls on a store, whatever its
    middleware. *)
Lemma reachable_inv development clk objects options calls :
  store_inv (default development (opt_devTools options))
    (do_calls (createStore options) calls
       (initialWorld development clk objects options)).2.
Proof.
  apply (do_calls_preserves (keeps (store_inv _)) options calls);
    auto using store_getState_inv, store_setState_inv, store_subscribe_inv,
      store_unsubscribe_inv, store_dispatch_inv, dateNow_inv, newAction_inv,
      emit_wrapper_inv.
  apply initialWorld_inv.
Qed.

Lemma getStateAt_0_newest d :
  DevTools.stateHistory d = [] ∨
  ∃ s, last (DevTools.stateHistory d) = Some s ∧ DevTools.getStateAt 0 d = Found s.
Proof.
  destruct (last (DevTools.stateHistory d)) as [s|] eqn:Hlast.
  - right. exists s. split; [done|]. unfold DevTools.getStateAt. by apply getAt_0_last.
  - left. by apply last_None.
Qed.

(** X6.  After every run of calls on a store, whatever its middleware,
    the recorder of the store holds at most 100 entries, as many states as
    actions, and unless nothing was recorded its newest state is the
    current state: [getStateAt(0)] is what [getState()] returns.  With
    recording off it holds nothing. *)
Theorem store_history_tracks_state
    (development : bool) (clk : nat → Z) (objects : list ActionObject)
    (options : StoreOptions) (calls : list StoreCall) :
  let store := createStore options in
  let w := (do_calls store calls (initialWorld development clk objects options)).2 in
  let d := devTools w in
  Z.of_nat (length (DevTools.getStateHistory d)) ≤ 100 ∧
  length (DevTools.getStateHistory d) = length (DevTools.getActionHistory d) ∧
  (getState store w).1 = Normal (state w) ∧
  (DevTools.getStateHistory d = [] ∨ DevTools.getStateAt 0 d = Found (state w)) ∧
  (default development (opt_devTools options) = false →
   DevTools.getStateHistory d = []).
Proof.
  intros store w d.
  destruct (reachable_inv development clk objects options calls)
    as (Hnd & Hen & Hls & Hmax & [Hlen Hbound] & Hoff & Hlast & Htr).
  fold store w d in Hnd, Hen, Hls, Hmax, Hlen, Hbound, Hoff, Hlast, Htr.
  unfold DevTools.getStateHistory, DevTools.getActionHistory.
  split; [lia|]. split; [done|].
  split; [unfold store; by rewrite createStore_getState|].
  split; [|done].
  destruct (getStateAt_0_newest d) as [Hnil|(s & Hs & Hget)]; [by left|].
  right. by rewrite <- (Hlast s Hs).
Qed.

(** X7.  The recorder that [createStore] builds stays private to the
    store: after every run of calls, whatever the middleware, it has no
    listener, so that no recorder listener was ever called; its bound is
    still 100 and its enabled flag is the one it was built with. *)
Theorem store_recorder_stays_private
    (development : bool) (clk : nat → Z) (objects : list ActionObject)
    (options : StoreOptions) (calls : list StoreCall) :
  let w := (do_calls (createStore options) calls
              (initialWorld development clk objects options)).2 in
  DevTools.listeners (devTools w) = [] ∧
  (∀ n, EvDevTools n ∉ trace w) ∧
  DevTools.maxHistorySize (devTools w) = 100 ∧
  DevTools.enabled (devTools w) = default development (opt_devTools options).
Proof.
  intros w.
  destruct (reachable_inv development clk objects options calls)
    as (Hnd & Hen & Hls & Hmax & _ & _ & _ & Htr).
  fold w in Hnd, Hen, Hls, Hmax, Htr.
  split; [done|]. split; [|done].
  intros n Hn. rewrite Forall_forall in Htr. by apply (Htr _ Hn).
Qed.

(** ** A listener that was unsubscribed *)

#[global] Instance stays_out_preorder l : PreOrder (stays_out l).
Proof.
  split.
  - intros w Hout. split; [done|]. exists []. by rewrite app_nil_r.
  - intros w1 w2 w3 H12 H23 Hout.
    destruct (H12 Hout) as (Hout2 & evs1 & Ht1 & H1).
    destruct (H23 Hout2) as (Hout3 & evs2 & Ht2 & H2).
    split; [done|]. exists (evs1 ++ evs2).
    split; [by rewrite Ht2, Ht1, app_assoc|by apply Forall_app].
Qed.

Lemma stays_out_same_listeners l w w' evs :
  listeners w' = listeners w → trace w' = trace w ++ evs →
  Forall (λ e, ∀ s a seen, e ≠ EvListener l s a seen) evs →
  stays_out l w w'.
Proof. intros Hl Ht Hevs Hout. rewrite Hl. eauto. Qed.

Lemma listener_events_stay_out l (ls : list ListenerId) s a seen :
  l ∉ ls →
  Forall (λ e, ∀ s' a' seen', e ≠ EvListener l s' a' seen')
    ((λ l', EvListener l' s a seen) <$> ls).
Proof.
  intros Hout. apply Forall_fmap, Forall_forall.
  intros l' Hl' s' a' seen' [= -> _ _ _]. done.
Qed.

Lemma store_getState_stays_out l : preserves (stays_out l) store_getState.
Proof. intros w. simpl. reflexivity. Qed.

Lemma dateNow_stays_out l : preserves (stays_out l) dateNow.
Proof.
  intros w. apply (stays_out_same_listeners l _ _ []); simpl;
    [done|by rewrite app_nil_r|apply Forall_nil_2].
Qed.

Lemma newAction_stays_out l object : preserves (stays_out l) (newAction object).
Proof.
  intros w. apply (stays_out_same_listeners l _ _ []); simpl;
    [done|by rewrite app_nil_r|apply Forall_nil_2].
Qed.

Lemma emit_wrapper_stays_out l i action :
  preserves (stays_out l) (emit [EvMiddleware i action]).
Proof.
  intros w. eapply stays_out_same_listeners; simpl; [done|done|].
  apply Forall_cons_2; [done|apply Forall_nil_2].
Qed.

Lemma store_subscribe_stays_out l l' :
  l' ≠ l → preserves (stays_out l) (store_subscribe l').
Proof.
  intros Hne w Hout. simpl. split.
  - unfold set_add. case_decide; [done|].
    rewrite elem_of_app, list_elem_of_singleton. intros [?| ->]; done.
  - exists []. split; [by rewrite app_nil_r|apply Forall_nil_2].
Qed.

Lemma store_unsubscribe_stays_out l l' : preserves (stays_out l) (store_unsubscribe l').
Proof.
  intros w Hout. simpl. split.
  - unfold set_delete. rewrite list_elem_of_filter. tauto.
  - exists []. split; [by rewrite app_nil_r|apply Forall_nil_2].
Qed.

Lemma store_setState_stays_out l u : preserves (stays_out l) (store_setState u).
Proof.
  intros w Hout. rewrite store_setState_eq. simpl. split; [done|].
  eexists. split; [done|]. apply Forall_app. split.
  - apply Forall_fmap, Forall_true. by intros n s a seen.
  - by apply listener_events_stay_out.
Qed.

Lemma store_dispatch_stays_out l a : preserves (stays_out l) (store_dispatch a).
Proof.
  intros w Hout. rewrite store_dispatch_eq.
  assert (stays_out l w (dispatch_entered a w)) as Hentered.
  { eapply stays_out_same_listeners; simpl; [done|done|].
    apply Forall_cons_2; [done|apply Forall_nil_2]. }
  destruct (heap w !! a) as [object|]; [|by apply Hentered].
  destruct (frozen object); [by apply Hentered|].
  simpl. split; [done|].
  eexists. split; [done|]. apply Forall_cons_2; [done|]. apply Forall_app. split.
  - apply Forall_fmap, Forall_true. by intros n s a' seen.
  - by apply listener_events_stay_out.
Qed.

Lemma exec_no_subscribe_result l {A : Type} (Q : A → Prop) next (c : Code A) w x w' :
  NoSubscribe l Q c → exec baseStore next c w = (Normal x, w') → Q x.
Proof.
  revert w.
  induction c as [r|e|a k IH|k IH|u k IH|l' k IH|a k IH|k IH|o k IH|a k IH|o k IH];
    intros w; simpl; unfold mbind, M_bind.
  - by intros ? [= <- _].
  - done.
  - intros ?. destruct (next a w) as [[[]|?] w1]; [by eapply IH|done].
  - intros ?. by eapply IH.
  - intros ?. destruct (store_setState u w) as [[[]|?] w1]; [by eapply IH|done].
  - intros [_ ?]. by eapply IH.
  - intros ?. destruct (store_dispatch a w) as [[[]|?] w1]; [by eapply IH|done].
  - intros ?. by eapply IH.
  - intros ?. by eapply IH.
  - intros ?. by eapply IH.
  - by apply IH.
Qed.

Lemma exec_stays_out l {A : Type} (Q : A → Prop) next (c : Code A) :
  NoSubscribe l Q c →
  (∀ a, preserves (stays_out l) (next a)) →
  preserves (stays_out l) (exec baseStore next c).
Proof.
  intros Hc Hnext.
  induction c as [r|e|a k IH|k IH|u k IH|l' k IH|a k IH|k IH|o k IH|a k IH|o k IH];
    simpl in *.
  - apply (preserves_ret (stays_out l)).
  - apply (preserves_throw (stays_out l)).
  - apply (preserves_bind (stays_out l)); [apply Hnext|]. intros _. by apply IH.
  - apply (preserves_bind (stays_out l)); [apply store_getState_stays_out|].
    intros s. by apply IH.
  - apply (preserves_bind (stays_out l)); [apply store_setState_stays_out|].
    intros _. by apply IH.
  - destruct Hc as [Hne Hk].
    apply (preserves_bind (stays_out l)); [by apply store_subscribe_stays_out|].
    intros _. by apply IH.
  - apply (preserves_bind (stays_out l)); [apply store_dispatch_stays_out|].
    intros _. by apply IH.
  - apply (preserves_bind (stays_out l)); [apply dateNow_stays_out|].
    intros t. by apply IH.
  - apply (preserves_bind (stays_out l)); [apply newAction_stays_out|].
    intros action. by apply IH.
  - apply (preserves_bind (stays_out l)); [apply (preserves_readAction (stays_out l))|].
    intros seen. by apply IH.
  - by apply IH.
Qed.

Lemma handle_stays_out l next m action :
  never_subscribes l m →
  (∀ a, preserves (stays_out l) (next a)) →
  preserves (stays_out l) (handle baseStore next m action).
Proof.
  intros Hm Hnext w. unfold handle, mbind, M_bind.
  pose proof (exec_stays_out l _ next m Hm Hnext w) as H1.
  destruct (exec baseStore next m w) as [[handler|e] w1] eqn:Hexec; simpl in *; [|done].
  etrans; [done|]. eapply exec_stays_out; [|done].
  exact (exec_no_subscribe_result l _ next m w handler w1 Hm Hexec action).
Qed.

Lemma nest_stays_out l ms :
  Forall (never_subscribes l) ms →
  ∀ i action, preserves (stays_out l) (nest baseStore store_dispatch i ms action).
Proof.
  intros Hms. induction Hms as [|m ms Hm _ IH]; intros i action; simpl.
  - apply store_dispatch_stays_out.
  - intros w. rewrite wrap_handle. etrans; [apply emit_wrapper_stays_out|].
    by apply handle_stays_out.
Qed.

Lemma do_calls_stays_out l options calls :
  (∀ ms, middleware options = Some ms → Forall (never_subscribes l) ms) →
  Forall (λ call, call ≠ DoSubscribe l) calls →
  preserves (stays_out l) (do_calls (createStore options) calls).
Proof.
  intros Hms Hcalls.
  induction Hcalls as [|call calls Hcall _ IH]; simpl;
    [apply (preserves_ret (stays_out l))|].
  apply (preserves_bind (stays_out l)); [|done].
  destruct call as [|u|l'|l'|a]; simpl.
  - apply (preserves_bind (stays_out l)); [|intros; apply (preserves_ret (stays_out l))].
    rewrite createStore_getState. apply store_getState_stays_out.
  - rewrite createStore_setState. apply store_setState_stays_out.
  - apply (preserves_bind (stays_out l)); [|intros; apply (preserves_ret (stays_out l))].
    rewrite createStore_subscribe. apply store_subscribe_stays_out. congruence.
  - apply store_unsubscribe_stays_out.
  - destruct (middleware options) as [ms|] eqn:Hmw.
    + rewrite (createStore_dispatch options ms Hmw). apply nest_stays_out. by apply Hms.
    + rewrite createStore_no_middleware by auto. apply store_dispatch_stays_out.
Qed.

Lemma set_delete_add l ls :
  set_delete l (set_add l ls) = set_delete l ls.
Proof.
  unfold set_delete, set_add. case_decide; [done|].
  rewrite filter_app, filter_cons_False by (intros H'; by apply H').
  by rewrite filter_nil, app_nil_r.
Qed.

Lemma set_delete_absent l ls : l ∉ ls → set_delete l ls = ls.
Proof.
  intros Hout. unfold set_delete. induction ls as [|x ls IH]; [done|].
  apply not_elem_of_cons in Hout as [Hne Hout].
  rewrite filter_cons_True by done. by rewrite IH.
Qed.

(** X9.  Calling the closure that [subscribe(l)] returned removes [l] and
    only [l] from the listeners (all of them are back as they were if [l]
    was not subscribed before), and calling it again changes nothing.
    From then on, as long as [l] is not subscribed again by the caller or
    by a middleware, no call on the store calls [l], whatever listeners
    remain. *)
Theorem unsubscribed_listener_is_not_called
    (options : StoreOptions) (l : ListenerId) (calls : list StoreCall)
    (w : World) (unsubscribe : M unit) :
  (∀ ms, middleware options = Some ms → Forall (never_subscribes l) ms) →
  Forall (λ call, call ≠ DoSubscribe l) calls →
  let store := createStore options in
  (subscribe store l w).1 = Normal unsubscribe →
  let w1 := (unsubscribe (subscribe store l w).2).2 in
  let w2 := (do_calls store calls w1).2 in
  listeners w1 = filter (λ l', l' ≠ l) (listeners w) ∧
  (l ∉ listeners w → listeners w1 = listeners w) ∧
  listeners (unsubscribe w1).2 = listeners w1 ∧
  (∀ s a seen, EvListener l s a seen ∉ events_since w1 w2) ∧
  (l ∉ listeners w2).
Proof.
  intros Hms Hcalls store Hsub w1 w2.
  unfold store in Hsub. rewrite createStore_subscribe in Hsub. simpl in Hsub.
  injection Hsub as <-.
  assert (listeners w1 = set_delete l (listeners w)) as Hw1.
  { unfold w1, store. rewrite createStore_subscribe. simpl. apply set_delete_add. }
  assert (l ∉ listeners w1) as Hout.
  { rewrite Hw1. unfold set_delete. rewrite list_elem_of_filter. tauto. }
  split; [done|]. split; [intros Hw; rewrite Hw1; by apply set_delete_absent|].
  split; [simpl; by apply set_delete_absent|].
  destruct (do_calls_stays_out l options calls Hms Hcalls w1 Hout)
    as (Hout2 & evs & Ht & Hevs).
  fold store w2 in Hout2, Ht. split; [|done].
  intros s a seen Hin. rewrite (events_since_app _ _ _ Ht) in Hin.
  rewrite Forall_forall in Hevs. by apply (Hevs _ Hin s a seen).
Qed.

(* ===================================================================== *)
(** * Further properties of the middleware pipeline *)
(* ===================================================================== *)





Lemma transformed_length fs properties : length (transformed fs properties) = length fs.
Proof.
  revert properties. induction fs as [|f fs IH]; intros properties; simpl; [done|].
  by rewrite IH.
Qed.







(** ** Exceptions *)











(* ===================================================================== *)
(** * Properties of the logger *)
(* ===================================================================== *)

Section logger_properties.

Variable host : Logger.Host.

Implicit Types (w : Logger.World) (entry : Logger.LogEntry).

Lemma log_same_settings entry w : same_settings w (Logger.log host entry w).2.
Proof.
  unfold Logger.log, same_settings.
  destruct (Logger.shouldLog _ _ _); simpl; [|done].
  by destruct (Logger.formatEntry _ _ _).
Qed.

Lemma log_at_same_settings lv cat msg d w :
  same_settings w (Logger.log_at host lv cat msg d w).2.
Proof. unfold Logger.log_at. simpl. apply (log_same_settings _ (Logger.mkWorld _ _ _)). Qed.

Lemma call_same_settings c w : same_settings w (Logger.call host c w).2.
Proof.
  destruct c; simpl; try apply log_at_same_settings; done.
Qed.

Lemma run_same_settings calls w : same_settings w (Logger.run host calls w).
Proof.
  revert w. induction calls as [|c calls IH]; intros w; simpl; [done|].
  destruct (call_same_settings c w) as (Hp & Hm & Hf).
  destruct (IH (Logger.call host c w).2) as (Hp' & Hm' & Hf').
  unfold same_settings, Logger.run in *. simpl. repeat split; congruence.
Qed.

Lemma omap_suffix {A B : Type} (f : A → option B) (l1 l2 : list A) :
  l1 `suffix_of` l2 → omap f l1 `suffix_of` omap f l2.
Proof. intros [k ->]. rewrite omap_app. by apply suffix_app_r. Qed.

(** The console call of an entry, by how its formatting ends. *)
Lemma console_call_Normal fmt entry text :
  Logger.formatEntry host fmt entry = Normal text →
  Logger.console_call host fmt entry
  = Some {| Logger.console_method := Logger.level entry;
            Logger.console_text := text;
            Logger.console_data := Logger.data entry |}.
Proof. unfold Logger.console_call. by intros ->. Qed.

Lemma console_call_Throw fmt entry e :
  Logger.formatEntry host fmt entry = Throw e →
  Logger.console_call host fmt entry = None.
Proof. unfold Logger.console_call. by intros ->. Qed.

Lemma log_inv entry w : logger_inv host w → logger_inv host (Logger.log host entry w).2.
Proof.
  intros (Hlen & Hoff & Hsuf). unfold Logger.log.
  destruct (Logger.shouldLog _ _ _); simpl; [|done].
  set (fmt := Logger.format (Logger.self w)) in *.
  set (cc := Logger.console_call host fmt) in *.
  assert (∀ kept, kept `suffix_of` Logger.entries (Logger.self w) ++ [entry] →
            match Logger.formatEntry host fmt entry with
            | Normal text =>
                omap cc kept `suffix_of`
                  Logger.console w
                  ++ [{| Logger.console_method := Logger.level entry;
                         Logger.console_text := text;
                         Logger.console_data := Logger.data entry |}]
            | Throw _ => omap cc kept `suffix_of` Logger.console w
            end) as Hkept.
  { intros kept Hk. apply (omap_suffix cc) in Hk. rewrite omap_app in Hk. simpl in Hk.
    destruct (Logger.formatEntry host fmt entry) as [text|e] eqn:Hfmt.
    - unfold cc at 3 in Hk. rewrite (console_call_Normal _ _ _ Hfmt) in Hk.
      etrans; [exact Hk|]. by apply suffix_app.
    - unfold cc at 3 in Hk. rewrite (console_call_Throw _ _ _ Hfmt) in Hk.
      rewrite app_nil_r in Hk. by etrans. }
  assert (∀ kept,
            Z.of_nat (length kept) ≤ Z.max 0 (Logger.maxEntries (Logger.self w)) →
            (Logger.persist (Logger.self w) = false → kept = []) →
            kept `suffix_of` Logger.entries (Logger.self w) ++ [entry] →
            logger_inv host
              (match Logger.formatEntry host fmt entry with
               | Throw e =>
                   (Throw e,
                    {| Logger.self :=
                         {| Logger.enabled := Logger.enabled (Logger.self w);
                            Logger.threshold := Logger.threshold (Logger.self w);
                            Logger.categories := Logger.categories (Logger.self w);
                            Logger.persist := Logger.persist (Logger.self w);
                            Logger.maxEntries := Logger.maxEntries (Logger.self w);
                            Logger.format := fmt;
                            Logger.entries := kept |};
                       Logger.ticks := Logger.ticks w;
                       Logger.console := Logger.console w |})
               | Normal text =>
                   (Normal (),
                    {| Logger.self :=
                         {| Logger.enabled := Logger.enabled (Logger.self w);
                            Logger.threshold := Logger.threshold (Logger.self w);
                            Logger.categories := Logger.categories (Logger.self w);
                            Logger.persist := Logger.persist (Logger.self w);
                            Logger.maxEntries := Logger.maxEntries (Logger.self w);
                            Logger.format := fmt;
                            Logger.entries := kept |};
                       Logger.ticks := Logger.ticks w;
                       Logger.console :=
                         Logger.console w
                         ++ [{| Logger.console_method := Logger.level entry;
                                Logger.console_text := text;
                                Logger.console_data := Logger.data entry |}] |})
               end).2) as Hinv.
  { intros kept Hk1 Hk2 Hk3. specialize (Hkept kept Hk3).
    destruct (Logger.formatEntry host fmt entry); by split. }
  destruct (Logger.persist (Logger.self w)) eqn:Hp.
  - rewrite length_app. simpl.
    destruct (Z.gtb_spec (Z.of_nat (length (Logger.entries (Logger.self w)) + 1))
                (Logger.maxEntries (Logger.self w))) as [Hgt|Hle].
    + apply Hinv; [rewrite shift_length, length_app; simpl; lia|done|].
      apply suffix_drop.
    + apply Hinv; [rewrite length_app; simpl; lia|done|done].
  - apply Hinv; [done|by auto|]. rewrite Hoff by done. apply suffix_nil.
Qed.

Lemma call_inv c w : logger_inv host w → logger_inv host (Logger.call host c w).2.
Proof.
  intros Hw. pose proof Hw as (Hlen & Hoff & Hsuf).
  destruct c; simpl; try (by apply (log_inv _ (Logger.mkWorld _ _ _))); try done.
  unfold logger_inv. simpl. split; [lia|]. split; [done|]. apply suffix_nil.
Qed.

Lemma run_inv_logger calls w : logger_inv host w → logger_inv host (Logger.run host calls w).
Proof.
  revert w. induction calls as [|c calls IH]; intros w Hw; simpl; [done|].
  apply IH. by apply call_inv.
Qed.

Lemma fresh_inv development options : logger_inv host (Logger.fresh development options).
Proof. unfold logger_inv. simpl. split; [lia|]. split; [done|]. apply suffix_nil. Qed.

(** In the text format every entry has its console call. *)
Lemma omap_console_call_TEXT (l : list Logger.LogEntry) :
  omap (Logger.console_call host Logger.TEXT) l
  = (λ entry, {| Logger.console_method := Logger.level entry;
                 Logger.console_text := Logger.text_line host entry;
                 Logger.console_data := Logger.data entry |}) <$> l.
Proof. induction l as [|entry l IH]; [done|]. simpl. by f_equal. Qed.

(** [log] on an entry whose formatting throws: the entry is stored and not
    written, and the exception reaches the caller. *)
Lemma log_throwing entry e w :
  Logger.shouldLog (Logger.level entry) (Logger.category entry) (Logger.self w) = true →
  Logger.persist (Logger.self w) = true →
  1 ≤ Logger.maxEntries (Logger.self w) →
  Logger.formatEntry host (Logger.format (Logger.self w)) entry = Throw e →
  (Logger.log host entry w).1 = Throw e ∧
  Logger.console (Logger.log host entry w).2 = Logger.console w ∧
  last (Logger.getEntries (Logger.log host entry w).2) = Some entry.
Proof.
  intros Hshould Hp Hmax Hfmt. unfold Logger.log, Logger.getEntries.
  rewrite Hshould, Hp, Hfmt. simpl. split; [done|]. split; [done|].
  rewrite length_app. simpl.
  destruct (Z.gtb_spec (Z.of_nat (length (Logger.entries (Logger.self w)) + 1))
              (Logger.maxEntries (Logger.self w))) as [Hgt|Hle].
  - destruct (Logger.entries (Logger.self w)) as [|e0 es]; simpl in *; [lia|].
    unfold shift. simpl. rewrite drop_0. apply last_snoc.
  - apply last_snoc.
Qed.

(** X14.  After any run of calls on a logger, the stored entries number at
    most [maxEntries] (none when [maxEntries] is negative), there are none
    unless [persist] is on, and the stored entries whose formatting does
    not throw were written to the console: their console calls are the
    last calls made, in order.  In the text format these are all the
    stored entries.  An entry whose formatting throws, as
    [JSON.stringify] can, is stored and not written, and the call that
    logged it throws. *)
Theorem logger_entries_bounded_and_written
    (development : bool) (options : Logger.Options) (calls : list Logger.Call) :
  let w := Logger.run host calls (Logger.fresh development options) in
  let lg := Logger.self w in
  let fmt := default Logger.TEXT (Logger.opt_format options) in
  Logger.maxEntries lg = default 1000 (Logger.opt_maxEntries options) ∧
  Z.of_nat (length (Logger.getEntries w)) ≤ Z.max 0 (Logger.maxEntries lg) ∧
  (default false (Logger.opt_persist options) = false → Logger.getEntries w = []) ∧
  omap (Logger.console_call host fmt) (Logger.getEntries w)
    `suffix_of` Logger.console w ∧
  (fmt = Logger.TEXT →
   ((λ entry, {| Logger.console_method := Logger.level entry;
                 Logger.console_text := Logger.text_line host entry;
                 Logger.console_data := Logger.data entry |})
      <$> Logger.getEntries w) `suffix_of` Logger.console w) ∧
  (∀ lv cat msg d e,
     let entry := (Logger.createEntry host lv cat msg d w).1 in
     Logger.shouldLog lv cat lg = true →
     default false (Logger.opt_persist options) = true →
     1 ≤ Logger.maxEntries lg →
     Logger.formatEntry host fmt entry = Throw e →
     (Logger.log_at host lv cat msg d w).1 = Throw e ∧
     Logger.console (Logger.log_at host lv cat msg d w).2 = Logger.console w ∧
     last (Logger.getEntries (Logger.log_at host lv cat msg d w).2) = Some entry).
Proof.
  intros w lg fmt.
  destruct (run_same_settings calls (Logger.fresh development options))
    as (Hp & Hm & Hf).
  destruct (run_inv_logger calls _ (fresh_inv development options))
    as (Hlen & Hoff & Hsuf).
  fold w lg in Hp, Hm, Hf, Hlen, Hoff, Hsuf. simpl in Hp, Hm, Hf.
  fold fmt in Hf. rewrite Hf in Hsuf.
  unfold Logger.getEntries. fold lg.
  split; [done|]. split; [done|]. split; [by rewrite <- Hp|]. split; [done|].
  split.
  - intros Htext. rewrite Htext in Hsuf. by rewrite <- omap_console_call_TEXT.
  - intros lv cat msg d e Hshould Hpersist Hmax Hfmt.
    unfold Logger.log_at. simpl. simpl in Hfmt.
    apply (log_throwing _ e (Logger.mkWorld _ _ _)); simpl; fold lg;
      [done|congruence|done|by rewrite Hf].
Qed.

(** When the formatting of no entry throws, every entry has its console
    call. *)
Lemma omap_console_call_all fmt :
  formats_all host fmt →
  ∃ g, ∀ l : list Logger.LogEntry, omap (Logger.console_call host fmt) l = g <$> l.
Proof.
  intros Hall.
  exists (λ entry,
            default {| Logger.console_method := Logger.level entry;
                       Logger.console_text := "";
                       Logger.console_data := Logger.data entry |}
              (Logger.console_call host fmt entry)).
  induction l as [|entry l IH]; [done|].
  destruct (Hall entry) as [text Htext].
  cbn [omap list_omap fmap list_fmap].
  rewrite (console_call_Normal _ _ _ Htext). simpl. by f_equal.
Qed.

Lemma log_newest entry w :
  Logger.persist (Logger.self w) = true →
  formats_all host (Logger.format (Logger.self w)) →
  logger_newest host w → logger_newest host (Logger.log host entry w).2.
Proof.
  intros Hp Hall Hnew. unfold Logger.log.
  destruct (Logger.shouldLog _ _ _); simpl; [|done].
  destruct (Hall entry) as [text Htext]. rewrite Htext.
  unfold logger_newest in *. simpl. rewrite Hp.
  pose proof (console_call_Normal _ _ _ Htext) as Hcall.
  destruct (omap_console_call_all _ Hall) as [g Hg].
  rewrite Hg in Hnew. rewrite Hg.
  assert (g entry = {| Logger.console_method := Logger.level entry;
                       Logger.console_text := text;
                       Logger.console_data := Logger.data entry |}) as Hgentry.
  { specialize (Hg [entry]). simpl in Hg. rewrite Hcall in Hg. by injection Hg. }
  set (M := Z.max 0 (Logger.maxEntries (Logger.self w))) in *.
  assert (Z.of_nat (length (Logger.entries (Logger.self w)))
          = Z.min (Z.of_nat (length (Logger.console w))) M) as Hlen.
  { rewrite <- (length_fmap g), Hnew, length_drop. lia. }
  rewrite !length_app. simpl.
  destruct (Z.gtb_spec (Z.of_nat (length (Logger.entries (Logger.self w)) + 1))
              (Logger.maxEntries (Logger.self w))) as [Hgt|Hle].
  - unfold shift. rewrite fmap_drop, fmap_app, Hnew. simpl. rewrite Hgentry.
    rewrite <- drop_app_le by lia. rewrite drop_drop. f_equal. lia.
  - rewrite fmap_app, Hnew. simpl. rewrite Hgentry.
    rewrite <- drop_app_le by lia. f_equal. lia.
Qed.

Lemma call_newest c w :
  c ≠ Logger.CallClearEntries →
  Logger.persist (Logger.self w) = true →
  formats_all host (Logger.format (Logger.self w)) →
  logger_newest host w → logger_newest host (Logger.call host c w).2.
Proof.
  intros Hc Hp Hall Hw.
  destruct c; simpl; try (by apply (log_newest _ (Logger.mkWorld _ _ _))); done.
Qed.

(** The text format throws on no entry. *)
Lemma formats_all_TEXT : formats_all host Logger.TEXT.
Proof. intros entry. by eexists. Qed.

(** X15.  On a logger built with [persist] on, as long as [clearEntries]
    is not called and the formatting of no entry throws (the format is
    text, or [JSON.stringify] returns on every entry), the stored entries
    are exactly the newest console calls: all of them while they are at
    most [maxEntries], the last [maxEntries] of them afterwards. *)
Theorem logger_keeps_the_newest_entries
    (development : bool) (options : Logger.Options) (calls : list Logger.Call) :
  Logger.opt_persist options = Some true →
  formats_all host (default Logger.TEXT (Logger.opt_format options)) →
  Forall (λ c, c ≠ Logger.CallClearEntries) calls →
  let w := Logger.run host calls (Logger.fresh development options) in
  let bound := Z.max 0 (default 1000 (Logger.opt_maxEntries options)) in
  omap (Logger.console_call host (default Logger.TEXT (Logger.opt_format options)))
    (Logger.getEntries w)
  = drop (Z.to_nat (Z.of_nat (length (Logger.console w)) - bound)) (Logger.console w) ∧
  length (omap (Logger.console_call host
                  (default Logger.TEXT (Logger.opt_format options)))
            (Logger.getEntries w))
  = length (Logger.getEntries w).
Proof.
  intros Hp Hall Hcalls w bound.
  assert (∀ w0, Logger.persist (Logger.self w0) = true →
                formats_all host (Logger.format (Logger.self w0)) →
                logger_newest host w0 →
                logger_newest host (Logger.run host calls w0)) as Hrun.
  { induction Hcalls as [|c calls Hc _ IH]; intros w0 Hp0 Hall0 Hw0; simpl; [done|].
    destruct (call_same_settings c w0) as (Hp1 & _ & Hf1).
    apply IH; [congruence|by rewrite Hf1|by apply call_newest]. }
  destruct (run_same_settings calls (Logger.fresh development options))
    as (_ & Hm & Hf).
  fold w in Hm, Hf. simpl in Hm, Hf.
  specialize (Hrun (Logger.fresh development options)). fold w in Hrun.
  unfold logger_newest in Hrun. rewrite Hm, Hf in Hrun.
  split.
  - apply Hrun; simpl; [by rewrite Hp|done|by rewrite drop_nil].
  - destruct (omap_console_call_all _ Hall) as [g Hg].
    by rewrite Hg, length_fmap.
Qed.








End logger_properties.

(* ===================================================================== *)
(** * Concrete runs for the further properties *)
(* ===================================================================== *)

Lemma scenario4_recorder_inv : history_inv scenario4_recorder.
Proof. split; vm_compute; congruence. Defined.

Lemma record_all_keeps_the_newest_witness :
  let d := scenario4_recorder in
  let calls := two_records in
  DevTools.enabled d = true ∧ history_inv d ∧
  DevTools.getStateHistory (record_all calls d)
    = drop 2 (DevTools.stateHistory d ++ calls.*2) ∧
  length (DevTools.getStateHistory (record_all calls d)) = 5%nat.
Proof.
  intros d calls.
  destruct (record_all_keeps_the_newest calls d eq_refl scenario4_recorder_inv)
    as (Hs & _ & Hlen).
  split; [reflexivity|]. split; [exact scenario4_recorder_inv|].
  split; [exact Hs|]. apply Nat2Z.inj. exact Hlen.
Defined.

Lemma getAt_returns_the_pair_of_one_record_witness :
  let d := DevTools.new true no_options in
  DevTools.enabled d = true ∧ history_inv d ∧
  (1 < length two_records)%nat ∧ Z.of_nat 1 < DevTools.maxHistorySize d ∧
  two_records !! (length two_records - 1 - 1)%nat
    = Some (numbered_action 1, count_state 1) ∧
  DevTools.getStateAt (Z.of_nat 1) (record_all two_records d) = Found (count_state 1) ∧
  DevTools.getActionAt (Z.of_nat 1) (record_all two_records d)
    = Found (numbered_action 1).
Proof.
  intros d.
  assert (history_inv d) as Hinv by (split; simpl; lia).
  assert (1 < length two_records)%nat as Hi by (simpl; lia).
  assert (Z.of_nat 1 < DevTools.maxHistorySize d) as Hmax by (simpl; lia).
  split; [reflexivity|]. split; [exact Hinv|]. split; [exact Hi|].
  split; [exact Hmax|]. split; [reflexivity|].
  exact (getAt_returns_the_pair_of_one_record two_records d 1
           (numbered_action 1) (count_state 1) eq_refl Hinv Hi Hmax eq_refl).
Defined.

Lemma setMaxHistorySize_keeps_recent_indices_witness :
  let d := scenario4_recorder in
  let d' := default d (DevTools.setMaxHistorySize 2 d) in
  0 ≤ 2 ∧
  length (DevTools.stateHistory d) = length (DevTools.actionHistory d) ∧
  DevTools.setMaxHistorySize 2 d = Some d' ∧
  DevTools.getStateAt 1 d' = DevTools.getStateAt 1 d ∧
  DevTools.getStateAt 2 d' = Null.
Proof.
  intros d d'.
  assert (0 ≤ 2) as Hsize by lia.
  assert (DevTools.setMaxHistorySize 2 d = Some d') as Hset by (vm_compute; reflexivity).
  destruct (setMaxHistorySize_keeps_recent_indices 2 d d' 1 Hsize eq_refl Hset)
    as [Hkeep _].
  destruct (setMaxHistorySize_keeps_recent_indices 2 d d' 2 Hsize eq_refl Hset)
    as [_ Hgone].
  split; [exact Hsize|]. split; [reflexivity|]. split; [exact Hset|].
  split; [apply Hkeep; lia|apply Hgone; lia].
Defined.

Lemma setMaxHistorySize_negative_never_returns_witness :
  -1 < 0 ∧
  DevTools.setMaxHistorySize_fuel 1000 (-1) scenario4_recorder = None.
Proof.
  assert (-1 < 0) as Hneg by lia.
  split; [exact Hneg|].
  exact (setMaxHistorySize_negative_never_returns (-1) scenario4_recorder 1000 Hneg).
Defined.


Lemma unsubscribed_listener_is_not_called_witness :
  let options := chain_options [createLogger; marking] in
  let store := createStore options in
  let calls := [DoSetState (UObj (count_state 1)); DoDispatch (numbered_action 1)] in
  let w1 := (store_unsubscribe 7 (subscribe store 7%nat plain_world).2).2 in
  (∀ ms, middleware options = Some ms → Forall (never_subscribes 7) ms) ∧
  Forall (λ call, call ≠ DoSubscribe 7) calls ∧
  (subscribe store 7%nat plain_world).1 = Normal (store_unsubscribe 7) ∧
  (∀ s a seen, EvListener 7 s a seen ∉ events_since w1 (do_calls store calls w1).2).
Proof.
  intros options store calls w1.
  assert (∀ ms, middleware options = Some ms → Forall (never_subscribes 7) ms) as Hms.
  { intros ms [= <-].
    repeat (apply Forall_cons_2; [unfold never_subscribes; simpl; intuition auto|]).
    apply Forall_nil_2. }
  assert (Forall (λ call, call ≠ DoSubscribe 7) calls) as Hcalls.
  { repeat (apply Forall_cons_2; [discriminate|]). apply Forall_nil_2. }
  destruct (unsubscribed_listener_is_not_called options 7 calls plain_world
              (store_unsubscribe 7) Hms Hcalls eq_refl) as (_ & _ & _ & Hnot & _).
  split; [exact Hms|]. split; [exact Hcalls|]. split; [reflexivity|]. exact Hnot.
Defined.





Lemma logger_entries_bounded_and_written_witness :
  let w := Logger.fresh false json_logger_options in
  let entry := (Logger.createEntry sample_host LogLevel.WARN LogCategory.STATE "one"
                  Logger.NoData w).1 in
  let r := Logger.log_at sample_host LogLevel.WARN LogCategory.STATE "one"
             Logger.NoData w in
  Logger.shouldLog LogLevel.WARN LogCategory.STATE (Logger.self w) = true ∧
  default false (Logger.opt_persist json_logger_options) = true ∧
  1 ≤ Logger.maxEntries (Logger.self w) ∧
  Logger.formatEntry sample_host Logger.JSON entry = Throw TypeError ∧
  r.1 = Throw TypeError ∧
  Logger.console r.2 = [] ∧
  Logger.getEntries r.2 = [entry].
Proof.
  intros w entry r.
  assert (1 ≤ Logger.maxEntries (Logger.self w)) as Hmax by (simpl; lia).
  destruct (logger_entries_bounded_and_written sample_host false json_logger_options [])
    as (_ & _ & _ & _ & _ & Hthrow).
  destruct (Hthrow LogLevel.WARN LogCategory.STATE "one"%string Logger.NoData TypeError
              eq_refl eq_refl Hmax eq_refl) as (Hres & Hconsole & _).
  split; [reflexivity|]. split; [reflexivity|]. split; [exact Hmax|].
  split; [reflexivity|]. split; [exact Hres|]. split; [exact Hconsole|].
  reflexivity.
Defined.

Lemma logger_keeps_the_newest_entries_witness :
  let w := Logger.run sample_host three_warnings
             (Logger.fresh false small_logger_options) in
  Logger.opt_persist small_logger_options = Some true ∧
  formats_all sample_host
    (default Logger.TEXT (Logger.opt_format small_logger_options)) ∧
  Forall (λ c, c ≠ Logger.CallClearEntries) three_warnings ∧
  omap (Logger.console_call sample_host Logger.TEXT) (Logger.getEntries w)
  = drop 1 (Logger.console w) ∧
  length (Logger.getEntries w) = 2%nat.
Proof.
  intros w.
  assert (Forall (λ c, c ≠ Logger.CallClearEntries) three_warnings) as Hcalls.
  { repeat (apply Forall_cons_2; [discriminate|]). apply Forall_nil_2. }
  pose proof (formats_all_TEXT sample_host) as Hall.
  split; [reflexivity|]. split; [exact Hall|]. split; [exact Hcalls|].
  destruct (logger_keeps_the_newest_entries sample_host false small_logger_options
              three_warnings eq_refl Hall Hcalls) as [Hnewest _].
  split; [exact Hnewest|reflexivity].
Defined.


